(** * pyClarion, [pyClarion/default/common.py]: activation channels, rules,
    junctions, selectors and usage statistics.

    Conventions of the embedding.
    - Python floats are read as real numbers ([R]): rounding is left out,
      the range of binary64 is not.  Where [**] and [numpy.exp] leave that
      range they overflow ([OverflowError], infinity) or underflow to zero as
      the float operations do, and the values [numpy] then computes with
      (infinity, NaN) are explicit ([np_float]).  The exceptions Python
      raises from arithmetic ([ZeroDivisionError], [OverflowError]) and from
      dictionary look-ups ([KeyError]) are explicit outcomes of type
      [result].  [MatchStatistics.discount], whose property is an exact
      equality of counters, is also given over IEEE binary64
      ([MatchStatistics64]).
    - A dictionary that is only looked up, or that is returned, is a [gmap];
      a dictionary whose iteration order drives a loop ([dim2activation]) is
      an insertion-ordered association list.
    - A Python [set] that is iterated is the list of its elements in
      iteration order; the theorems hold for every such order. *)

From stdpp Require Import gmap strings list fin_maps.
From Stdlib Require Import Reals RList Lra Floats ZArith.

Set Warnings "-clear-no-such-hyp".

(** ** Outcomes *)

Inductive exn : Type :=
  | KeyError
  | ZeroDivisionError
  | ValueError
  | IndexError
  | OverflowError.

Inductive result (A : Type) : Type :=
  | Ok (a : A)
  | Raise (e : exn).
Arguments Ok {A} a.
Arguments Raise {A} e.

Global Instance result_bind : MBind result := fun A B k r =>
  match r with
  | Ok a => k a
  | Raise e => Raise e
  end.

(** [for x in l: acc = step acc x], stopping at the first exception. *)
Fixpoint for_each {A S : Type} (step : S → A → result S) (acc : S) (l : list A)
  : result S :=
  match l with
  | [] => Ok acc
  | x :: l' => acc' ← step acc x ; for_each step acc' l'
  end.

(** [[f x for x in l]], stopping at the first exception. *)
Fixpoint comprehension {A B : Type} (f : A → result B) (l : list A)
  : result (list B) :=
  match l with
  | [] => Ok []
  | x :: l' => y ← f x ; ys ← comprehension f l' ; Ok (y :: ys)
  end.

(** [d[k]] on a dictionary. *)
Definition getitem `{Countable K} {V : Type} (d : gmap K V) (k : K) : result V :=
  match d !! k with
  | Some v => Ok v
  | None => Raise KeyError
  end.

(** [try: body except KeyError: handler]. *)
Definition try_except_KeyError {A : Type} (body handler : result A) : result A :=
  match body with
  | Raise KeyError => handler
  | r => r
  end.

(** ** Insertion-ordered dictionaries *)

Fixpoint od_get {K V : Type} `{EqDecision K} (d : list (K * V)) (k : K)
  : option V :=
  match d with
  | [] => None
  | (k', v) :: d' => if decide (k = k') then Some v else od_get d' k
  end.

(** [d[k] = v]: an existing key keeps its position, a new key goes last. *)
Fixpoint od_set {K V : Type} `{EqDecision K} (k : K) (v : V) (d : list (K * V))
  : list (K * V) :=
  match d with
  | [] => [(k, v)]
  | (k', v') :: d' =>
      if decide (k = k') then (k, v) :: d' else (k', v') :: od_set k v d'
  end.

Definition od_getitem {K V : Type} `{EqDecision K} (d : list (K * V)) (k : K)
  : result V :=
  match od_get d k with
  | Some v => Ok v
  | None => Raise KeyError
  end.

(** ** Arithmetic *)

Global Instance Rlt_decision : RelDecision Rlt := Rlt_dec.
Global Instance Rle_decision : RelDecision Rle := Rle_dec.
Global Instance Req_decision : EqDecision R := Req_dec_T.

(** [x / y] on floats. *)
Definition py_div (x y : R) : result R :=
  if decide (y = 0%R) then Raise ZeroDivisionError else Ok (x / y)%R.

(** [sum(xs)]. *)
Definition py_sum (xs : list R) : R := foldl Rplus 0%R xs.

(** The range of binary64 under rounding to nearest: a positive real of at
    least [float_huge] (half an ulp above the largest finite float) rounds to
    infinity, one of at most [float_tiny] (half the smallest subnormal)
    rounds to zero. *)
Definition float_huge : R := (2 ^ 1024 - 2 ^ 970)%R.
Definition float_tiny : R := (/ 2 ^ 1075)%R.

Definition flush_tiny (r : R) : R :=
  if decide (r <= float_tiny)%R then 0%R else r.

(** The float a library function returns for the positive exact result [r]:
    Python raises [OverflowError] where the float is infinite. *)
Definition float_round (r : R) : result R :=
  if decide (float_huge <= r)%R then Raise OverflowError
  else Ok (flush_tiny r).

(** [x ** y] on floats, in the order of CPython's [float_pow]: [x ** 0.0] is
    [1.0]; [0.0 ** y] raises for negative [y] and is [0.0] for positive [y];
    a positive base gives the real power, with [OverflowError] where it is
    too large for a float and [0.0] where it is too small; a negative base
    with an integral exponent gives the signed power of its absolute value.
    For a negative base and any other exponent Python yields a complex
    number, which has no place in the real-valued embedding: that value is
    left open as [pow_neg x y]. *)
Definition py_pow (pow_neg : R → R → R) (x y : R) : result R :=
  if decide (y = 0%R) then Ok 1%R
  else if decide (x = 0%R) then
    if decide (y < 0)%R then Raise ZeroDivisionError else Ok 0%R
  else if decide (0 < x)%R then float_round (Rpower x y)
  else if decide (IZR (Zfloor y) = y) then
    r ← float_round (Rpower (- x) y) ;
    Ok (if Z.odd (Zfloor y) then (- r)%R else r)
  else Ok (pow_neg x y).

(** ** Node model (consumed from [pyClarion.base.nodes]) *)

Record Microfeature : Type := mkMicrofeature {
  dim : string;
  val : string
}.

Global Instance Microfeature_eq_dec : EqDecision Microfeature.
Proof. solve_decision. Defined.

Global Instance Microfeature_countable : Countable Microfeature.
Proof.
  refine (inj_countable' (fun f => (dim f, val f))
                         (fun p => mkMicrofeature p.1 p.2) _).
  by intros [].
Defined.

(** A chunk is an identity object: [chunk_id] stands for the identity under
    which it is hashed. *)
Record Chunk : Type := mkChunk {
  chunk_id : positive;
  microfeatures : list Microfeature;
  dim2weight : gmap string R
}.

Inductive Node : Type :=
  | NChunk (c : positive)
  | NFeature (f : Microfeature).

Global Instance Node_eq_dec : EqDecision Node.
Proof. solve_decision. Defined.

Global Instance Node_countable : Countable Node.
Proof.
  refine (inj_countable'
            (fun n => match n with NChunk c => inl c | NFeature f => inr f end)
            (fun s => match s with inl c => NChunk c | inr f => NFeature f end) _).
  by intros [].
Defined.

Definition chunk_node (c : Chunk) : Node := NChunk (chunk_id c).

(** ** TopDown *)

Record TopDown : Type := mkTopDown {
  td_chunk : Chunk;
  val_counts : gmap string nat
}.

Definition count_step (counts : gmap string nat) (f : Microfeature)
  : gmap string nat :=
  match counts !! dim f with
  | Some n => <[dim f := (n + 1)%nat]> counts
  | None => <[dim f := 1%nat]> counts
  end.

Definition count_values (mfs : list Microfeature) : gmap string nat :=
  foldl count_step ∅ mfs.

Definition TopDown_init (chunk : Chunk) : TopDown :=
  {| td_chunk := chunk; val_counts := count_values (microfeatures chunk) |}.

Definition TopDown_step (self : TopDown) (strength : R)
    (activations : gmap Node R) (f : Microfeature) : result (gmap Node R) :=
  w_dim ← getitem (dim2weight (td_chunk self)) (dim f) ;
  n_val ← getitem (val_counts self) (dim f) ;
  a ← py_div (strength * w_dim) (INR n_val) ;
  Ok (<[NFeature f := a]> activations).

Definition TopDown_call (self : TopDown) (input_map : gmap Node R)
  : result (gmap Node R) :=
  match input_map !! chunk_node (td_chunk self) with
  | None => Ok ∅
  | Some strength =>
      for_each (TopDown_step self strength) ∅ (microfeatures (td_chunk self))
  end.

(** ** BottomUp *)

Record BottomUp : Type := mkBottomUp {
  bu_chunk : Chunk
}.

Definition BottomUp_init (chunk : Chunk) : BottomUp := {| bu_chunk := chunk |}.

Definition BottomUp_step (input_map : gmap Node R)
    (dim2activation : list (string * R)) (f : Microfeature)
  : result (list (string * R)) :=
  try_except_KeyError
    (cur ← od_getitem dim2activation (dim f) ;
     x ← getitem input_map (NFeature f) ;
     if decide (cur < x)%R
     then Ok (od_set (dim f) x dim2activation)
     else Ok dim2activation)
    (try_except_KeyError
       (x ← getitem input_map (NFeature f) ;
        Ok (od_set (dim f) x dim2activation))
       (Ok dim2activation)).

Definition BottomUp_strength_step (self : BottomUp)
    (dim2activation : list (string * R)) (strength : R) (d : string)
  : result R :=
  w ← getitem (dim2weight (bu_chunk self)) d ;
  a ← od_getitem dim2activation d ;
  Ok (strength + w * a)%R.

(** [sum(self.chunk.dim2weight.values())]. *)
Definition weight_total (chunk : Chunk) : R :=
  py_sum ((map_to_list (dim2weight chunk)).*2).

Definition BottomUp_call (pow_neg : R → R → R) (self : BottomUp)
    (input_map : gmap Node R) : result (gmap Node R) :=
  dim2activation ←
    for_each (BottomUp_step input_map) [] (microfeatures (bu_chunk self)) ;
  strength ←
    for_each (BottomUp_strength_step self dim2activation) 0%R
             (dim2activation.*1) ;
  divisor ← py_pow pow_neg (weight_total (bu_chunk self)) (11 / 10)%R ;
  strength ← py_div strength divisor ;
  Ok {[chunk_node (bu_chunk self) := strength]}.

(** ** Rule *)

Record Rule : Type := mkRule {
  chunk2weight : gmap positive R;
  conclusion_chunk : positive
}.

Definition Rule_step (self : Rule) (input_map : gmap Node R) (strength : R)
    (chunk : positive) : result R :=
  try_except_KeyError
    (x ← getitem input_map (NChunk chunk) ;
     w ← getitem (chunk2weight self) chunk ;
     Ok (strength + x * w)%R)
    (Ok strength).

Definition Rule_call (self : Rule) (input_map : gmap Node R)
  : result (gmap Node R) :=
  strength ←
    for_each (Rule_step self input_map) 0%R
             ((map_to_list (chunk2weight self)).*1) ;
  Ok {[NChunk (conclusion_chunk self) := strength]}.

(** ** MaxJunction *)

(** Modelled from the spec: [nodes.get_nodes], whose source is not part of
    this development; the junction's key set is the union of the key sets of
    all input maps. *)
Definition get_nodes (input_maps : list (gmap Node R)) : gset Node :=
  ⋃ (dom <$> input_maps).

Definition MaxJunction_step (node : Node) (activations : gmap Node R)
    (input_map : gmap Node R) : result (gmap Node R) :=
  try_except_KeyError
    (cur ← getitem activations node ;
     x ← getitem input_map node ;
     if decide (cur < x)%R
     then Ok (<[node := x]> activations)
     else Ok activations)
    (try_except_KeyError
       (x ← getitem input_map node ; Ok (<[node := x]> activations))
       (Ok activations)).

Definition MaxJunction_call (input_maps : list (gmap Node R))
  : result (gmap Node R) :=
  for_each
    (fun activations node =>
       for_each (MaxJunction_step node) activations input_maps)
    ∅ (elements (get_nodes input_maps)).

(** ** BoltzmannSelector *)

Record BoltzmannSelector : Type := mkBoltzmannSelector {
  chunks : list positive;
  temperature : R
}.

(** The [numpy.float64] values of the selector, none of which is negative:
    a number, infinity, or NaN. *)
Inductive np_float : Type :=
  | Finite (r : R)
  | PosInf
  | NaN.

(** [numpy.exp(x)]: infinity where [e^x] is too large for a float, [0.0]
    where it is too small. *)
Definition np_exp (x : R) : np_float :=
  if decide (float_huge <= exp x)%R then PosInf
  else Finite (flush_tiny (exp x)).

(** [a + b]: the sum of two numbers is their real sum (rounding is left
    out), anything added to infinity is infinity. *)
Definition np_add (a b : np_float) : np_float :=
  match a, b with
  | Finite x, Finite y => Finite (x + y)
  | NaN, _ | _, NaN => NaN
  | _, _ => PosInf
  end.

(** [a / b]: numpy divides by zero and by infinity without raising. *)
Definition np_div (a b : np_float) : np_float :=
  match a, b with
  | NaN, _ | _, NaN => NaN
  | PosInf, PosInf => NaN
  | PosInf, Finite _ => PosInf
  | Finite _, PosInf => Finite 0
  | Finite x, Finite y =>
      if decide (y = 0%R)
      then (if decide (x = 0%R) then NaN else PosInf)
      else Finite (x / y)
  end.

(** The numbers of a list of floats, if all of them are numbers. *)
Fixpoint finite_values (p : list np_float) : option (list R) :=
  match p with
  | [] => Some []
  | Finite r :: p' => cons r <$> finite_values p'
  | _ :: _ => None
  end.

(** [numpy.random.choice(a, p=p)] with the uniform sample [u] of [[0, 1)]
    made explicit: the arguments are validated (probabilities that hold a
    NaN or an infinity are rejected like those that are negative or do not
    sum to one), then the first index whose cumulative probability exceeds
    [u] is taken. *)
Fixpoint inverse_cdf {A : Type} (a : list A) (p : list R) (u : R) : option A :=
  match a, p with
  | x :: a', q :: p' =>
      if decide (u < q)%R then Some x else inverse_cdf a' p' (u - q)%R
  | _, _ => None
  end.

Definition np_random_choice {A : Type} (a : list A) (p : list np_float)
    (u : R) : result A :=
  if decide (a = []) then Raise ValueError
  else if decide (length a = length p) then
    match finite_values p with
    | None => Raise ValueError
    | Some q =>
        if decide (Forall (fun x => 0 <= x)%R q) then
          if decide (py_sum q = 1%R) then
            match inverse_cdf a q u with
            | Some x => Ok x
            | None => Raise IndexError
            end
          else Raise ValueError
        else Raise ValueError
    end
  else Raise ValueError.

Definition Boltzmann_step (self : BoltzmannSelector)
    (chunk2strength : gmap positive R)
    (st : gmap positive np_float * np_float) (chunk : positive)
  : result (gmap positive np_float * np_float) :=
  let '(terms, divisor) := st in
  terms ←
    try_except_KeyError
      (s ← getitem chunk2strength chunk ;
       q ← py_div s (temperature self) ;
       Ok (<[chunk := np_exp q]> terms))
      (Ok (<[chunk := Finite 1]> terms)) ;
  t ← getitem terms chunk ;
  Ok (terms, np_add divisor t).

(** The divisor is zero only when every term is a [numpy.exp] that
    underflowed, so the division by it is numpy's, which does not raise. *)
Definition Boltzmann_probabilities (self : BoltzmannSelector)
    (chunk2strength : gmap positive R) : result (list np_float) :=
  st ← for_each (Boltzmann_step self chunk2strength) (∅, Finite 0)
                (chunks self) ;
  comprehension (fun chunk => t ← getitem st.1 chunk ; Ok (np_div t st.2))
                (chunks self).

Definition Boltzmann_call (self : BoltzmannSelector)
    (chunk2strength : gmap positive R) (u : R) : result (gset positive) :=
  probabilities ← Boltzmann_probabilities self chunk2strength ;
  choice ← np_random_choice (chunks self) probabilities u ;
  Ok {[choice]}.

(** ** BLA *)

Record BLA : Type := mkBLA {
  initial_activation : R;
  amplitude : R;
  decay_rate : R;
  density : R;
  timestamps : list R
}.

Definition BLA_init (initial_activation amplitude decay_rate density : R)
  : BLA :=
  mkBLA initial_activation amplitude decay_rate density [].

Definition BLA_update (self : BLA) (current_time : R) : BLA :=
  mkBLA (initial_activation self) (amplitude self) (decay_rate self)
        (density self) (timestamps self ++ [current_time]).

Definition compute_bla (pow_neg : R → R → R) (self : BLA) (current_time : R)
  : result R :=
  summation_terms ←
    comprehension
      (fun t => py_pow pow_neg (current_time - t)%R (- decay_rate self)%R)
      (timestamps self) ;
  Ok (initial_activation self + amplitude self * py_sum summation_terms)%R.

Definition below_density (pow_neg : R → R → R) (self : BLA) (current_time : R)
  : result bool :=
  bla ← compute_bla pow_neg self current_time ;
  Ok (bool_decide (bla < density self)%R).

(** ** MatchStatistics *)

Record MatchStatistics : Type := mkMatchStatistics {
  positive_matches : R;
  negative_matches : R
}.

Definition MatchStatistics_init : MatchStatistics := mkMatchStatistics 0 0.

Definition MatchStatistics_update (self : MatchStatistics) (positive_match : bool)
  : MatchStatistics :=
  if positive_match
  then mkMatchStatistics (positive_matches self + 1) (negative_matches self)
  else mkMatchStatistics (positive_matches self) (negative_matches self + 1).

Definition discount (self : MatchStatistics) (multiplier : R) : MatchStatistics :=
  mkMatchStatistics (positive_matches self * multiplier)
                    (negative_matches self * multiplier).

(** ** MatchStatistics over IEEE binary64

    The same record and operation with the counters as the binary64 floats
    Python computes with. *)

Record MatchStatistics64 : Type := mkMatchStatistics64 {
  positive_matches64 : float;
  negative_matches64 : float
}.

Definition discount64 (self : MatchStatistics64) (multiplier : float)
  : MatchStatistics64 :=
  mkMatchStatistics64 (positive_matches64 self * multiplier)%float
                      (negative_matches64 self * multiplier)%float.

(** [0.5] and [0.25] in the specification of binary64: [2^52 * 2^-53] and
    [2^52 * 2^-54]. *)
Definition sf_half : spec_float := S754_finite false 4503599627370496 (-53).
Definition sf_quarter : spec_float := S754_finite false 4503599627370496 (-54).

(** Rounding of [m * 2^e] to binary64. *)
Definition round64 (s : bool) (m : positive) (e : Z) : spec_float :=
  binary_round_aux prec emax s (Zpos m) e loc_Exact.

(** The second half of [binary_round_aux]: renormalisation of the rounded
    mantissa [z] and the overflow test. *)
Definition round64_finish (s : bool) (z : Z) (e : Z) : spec_float :=
  let '(mrs, e') := shr_fexp prec emax z e loc_Exact in
  match shr_m mrs with
  | Z0 => S754_zero s
  | Zpos m =>
      if (e' <=? emax - prec)%Z then S754_finite s m e' else S754_infinity s
  | Zneg _ => S754_nan
  end.

(** ** Notions used to state the properties *)

(** [Σ_{x ∈ l} f x]. *)
Definition sum_over {A : Type} (f : A → R) (l : list A) : R :=
  foldr (fun x acc => (f x + acc)%R) 0%R l.

(** The number of the chunk's microfeatures with dimension [d]. *)
Definition count_dim (chunk : Chunk) (d : string) : nat :=
  length (filter (fun f => dim f = d) (microfeatures chunk)).

(** The node model's invariant: every dimension of an owned microfeature has
    a weight. *)
Definition weights_cover (chunk : Chunk) : Prop :=
  ∀ f, f ∈ microfeatures chunk → is_Some (dim2weight chunk !! dim f).

(** The node model's invariant: weights are non-negative. *)
Definition weights_nonneg (chunk : Chunk) : Prop :=
  ∀ d w, dim2weight chunk !! d = Some w → (0 <= w)%R.

(** The weight of dimension [d] ([0] stands in where the chunk has none). *)
Definition weight (chunk : Chunk) (d : string) : R :=
  default 0%R (dim2weight chunk !! d).

(** [Σ_d weight(d)] over all dimensions of the chunk's weight mapping. *)
Definition weight_sum (chunk : Chunk) : R :=
  sum_over (weight chunk) (elements (dom (dim2weight chunk))).

(** The activations the input holds for the microfeatures of dimension [d]. *)
Definition present_activations (mfs : list Microfeature)
    (input_map : gmap Node R) (d : string) : list R :=
  omap (fun f => if decide (dim f = d) then input_map !! NFeature f else None)
       mfs.

(** [D]: the dimensions with at least one microfeature present in the
    input. *)
Definition present_dims (mfs : list Microfeature) (input_map : gmap Node R)
  : gset string :=
  list_to_set (dim <$> filter (fun f => is_Some (input_map !! NFeature f)) mfs).

(** The maximum activation among the present microfeatures of dimension
    [d]. *)
Definition max_activation (mfs : list Microfeature) (input_map : gmap Node R)
    (d : string) : R :=
  MaxRlist (present_activations mfs input_map d).

(** [Σ_{d ∈ D} weight(d) * maxActivation(d)]. *)
Definition weighted_evidence (chunk : Chunk) (input_map : gmap Node R) : R :=
  sum_over
    (fun d => weight chunk d * max_activation (microfeatures chunk) input_map d)%R
    (elements (present_dims (microfeatures chunk) input_map)).

(** What [BottomUp.__call__] computes, written over the sets and maxima
    above instead of the loops of the source. *)
Definition BottomUp_spec (pow_neg : R → R → R) (chunk : Chunk)
    (input_map : gmap Node R) : result (gmap Node R) :=
  if decide (Forall (fun d => is_Some (dim2weight chunk !! d))
                    (elements (present_dims (microfeatures chunk) input_map)))
  then
    divisor ← py_pow pow_neg (weight_sum chunk) (11 / 10)%R ;
    strength ← py_div (weighted_evidence chunk input_map) divisor ;
    Ok {[chunk_node chunk := strength]}
  else Raise KeyError.

(** Loop invariant of the first loop of [BottomUp.__call__]: after the
    microfeatures [seen], [dim2activation] has one entry per present
    dimension, holding the largest activation seen in it. *)
Definition d2a_inv (input_map : gmap Node R) (seen : list Microfeature)
    (d2a : list (string * R)) : Prop :=
  NoDup d2a.*1 ∧
  ∀ d, match od_get d2a d with
       | None => present_activations seen input_map d = []
       | Some v =>
           v ∈ present_activations seen input_map d ∧
           ∀ x, x ∈ present_activations seen input_map d → (x <= v)%R
       end.

(** ** Concrete chunks and inputs *)

Definition white : Microfeature := mkMicrofeature "Color" "White".
Definition black : Microfeature := mkMicrofeature "Color" "Black".
Definition square : Microfeature := mkMicrofeature "Shape" "Square".

(** The black-or-white square of the test-suite, with unit weights. *)
Definition bw_square_chunk : Chunk :=
  mkChunk 2 [black; white; square] {["Color" := 1%R; "Shape" := 1%R]}.

(** A chunk without microfeatures. *)
Definition empty_chunk : Chunk := mkChunk 1 [] ∅.

(** A white chunk whose only dimension has weight zero. *)
Definition zero_weight_chunk : Chunk :=
  mkChunk 3 [white] {["Color" := 0%R]}.

(** A white square whose two dimensions both have weight two. *)
Definition heavy_square_chunk : Chunk :=
  mkChunk 4 [white; square] {["Color" := 2%R; "Shape" := 2%R]}.

(** An input that holds the white and the square microfeature at full
    activation. *)
Definition white_square_input : gmap Node R :=
  {[NFeature white := 1%R; NFeature square := 1%R]}.

(** [Σ_c weight(c) * input[c]] over the condition chunks of a rule, a chunk
    absent from the input counting for [0]. *)
Definition rule_strength (self : Rule) (input_map : gmap Node R) : R :=
  sum_over
    (fun c => default 0 (chunk2weight self !! c)
              * default 0 (input_map !! NChunk c))%R
    (elements (dom (chunk2weight self))).

(** The rule of the test-suite: condition chunks 1 and 2, weighted one half
    each, and conclusion chunk 3. *)
Definition half_rule : Rule :=
  mkRule {[1%positive := (1 / 2)%R; 2%positive := (1 / 2)%R]} 3%positive.

(** A positive real that a float operation returns as it is: it neither
    overflows nor rounds to zero. *)
Definition in_float_range (r : R) : Prop := (float_tiny < r < float_huge)%R.




(** The same sum with the terms as [**] returns them where it does not
    overflow: a term too small for a float counts for [0]. *)
Definition bla_value (self : BLA) (t_now : R) : R :=
  (initial_activation self
   + amplitude self
     * sum_over (fun t => flush_tiny (Rpower (t_now - t) (- decay_rate self)))
                (timestamps self))%R.

(** The values the input maps hold for [node]. *)
Definition node_values (input_maps : list (gmap Node R)) (node : Node)
  : list R :=
  omap (fun m => m !! node) input_maps.

(** Loop invariant of the inner loop of [MaxJunction.__call__]: after the
    maps [seen], [activations] holds the largest value seen for [node], or
    nothing when no map held it. *)
Definition max_inv (node : Node) (seen : list (gmap Node R))
    (activations : gmap Node R) : Prop :=
  match activations !! node with
  | None => node_values seen node = []
  | Some v =>
      v ∈ node_values seen node ∧
      ∀ x, x ∈ node_values seen node → (x <= v)%R
  end.

(** Loop invariant of the outer loop: the nodes [done] are settled and no
    other node has an entry yet. *)
Definition junction_inv (input_maps : list (gmap Node R)) (done : list Node)
    (activations : gmap Node R) : Prop :=
  ∀ k, if decide (k ∈ done) then max_inv k input_maps activations
       else activations !! k = None.

(** The Boltzmann term of a candidate: [exp(strength / T)] when the input
    holds the candidate, [1] otherwise. *)
Definition boltzmann_term (self : BoltzmannSelector)
    (chunk2strength : gmap positive R) (c : positive) : R :=
  match chunk2strength !! c with
  | Some s => exp (s / temperature self)
  | None => 1%R
  end.

(** The sum of the terms of all candidates. *)
Definition boltzmann_divisor (self : BoltzmannSelector)
    (chunk2strength : gmap positive R) : R :=
  sum_over (boltzmann_term self chunk2strength) (chunks self).

(** The probability of a candidate: its term over the sum of all terms. *)
Definition boltzmann_probability (self : BoltzmannSelector)
    (chunk2strength : gmap positive R) (c : positive) : R :=
  (boltzmann_term self chunk2strength c
   / boltzmann_divisor self chunk2strength)%R.

(** The probability mass of the candidates that precede position [i]. *)
Definition boltzmann_mass_before (self : BoltzmannSelector)
    (chunk2strength : gmap positive R) (i : nat) : R :=
  sum_over (boltzmann_probability self chunk2strength) (take i (chunks self)).

(** A selector over the candidates 1 and 2 at temperature one. *)
Definition two_chunk_selector : BoltzmannSelector :=
  mkBoltzmannSelector [1%positive; 2%positive] 1.

(** The term the selector stores for a candidate, and the divisor it
    accumulates over a list of candidates. *)
Definition np_term (self : BoltzmannSelector)
    (chunk2strength : gmap positive R) (c : positive) : np_float :=
  match chunk2strength !! c with
  | Some s => np_exp (s / temperature self)
  | None => Finite 1
  end.

Definition np_divisor (self : BoltzmannSelector)
    (chunk2strength : gmap positive R) (l : list positive) : np_float :=
  foldl np_add (Finite 0) (np_term self chunk2strength <$> l).

(** The order of the floats of the selector: numbers as reals, infinity
    above them; NaN is not compared. *)
Definition np_le (a b : np_float) : Prop :=
  match a, b with
  | Finite x, Finite y => (x <= y)%R
  | Finite _, PosInf | PosInf, PosInf => True
  | _, _ => False
  end.

(** [o] is the largest of the values [vals], or nothing when there is no
    value. *)
Definition is_max_of (o : option R) (vals : list R) : Prop :=
  match o with
  | None => vals = []
  | Some v => v ∈ vals ∧ ∀ x, x ∈ vals → (x <= v)%R
  end.

(** The calls a driver makes on a [MatchStatistics] record, and a record's
    state after a sequence of them. *)
Inductive stat_call : Type :=
  | CallUpdate (positive_match : bool)
  | CallDiscount (multiplier : R).

Definition apply_call (self : MatchStatistics) (c : stat_call)
  : MatchStatistics :=
  match c with
  | CallUpdate b => MatchStatistics_update self b
  | CallDiscount m => discount self m
  end.

Definition apply_calls (self : MatchStatistics) (cs : list stat_call)
  : MatchStatistics :=
  foldl apply_call self cs.

(** The number of [update] calls in a sequence, with the given outcome. *)
Definition is_update (b : bool) (c : stat_call) : bool :=
  match c with
  | CallUpdate b' => bool_decide (b' = b)
  | CallDiscount _ => false
  end.

Definition count_updates (b : bool) (cs : list stat_call) : nat :=
  length (filter (fun c => is_update b c) cs).

(** [1.0] in the specification of binary64: [2^52 * 2^-52]. *)
Definition sf_one : spec_float := S754_finite false 4503599627370496 (-52).

(** Replaces the enumeration of a closed finite set by its value. *)
Ltac eval_elements :=
  match goal with
  | |- context [elements ?X] =>
      let l := eval vm_compute in (elements X) in
      change (elements X) with l
  end.

(** * Properties *)

(** ** Outcomes: basic facts *)

Lemma bind_Ok {A B : Type} (a : A) (k : A → result B) :
  (Ok a ≫= k) = k a.
Proof. reflexivity. Qed.

Lemma bind_Raise {A B : Type} (e : exn) (k : A → result B) :
  (Raise e ≫= k) = Raise e.
Proof. reflexivity. Qed.

Lemma getitem_Some `{Countable K} {V : Type} (d : gmap K V) k v :
  d !! k = Some v → getitem d k = Ok v.
Proof. unfold getitem. by intros ->. Qed.

Lemma getitem_None `{Countable K} {V : Type} (d : gmap K V) k :
  d !! k = None → getitem d k = Raise KeyError.
Proof. unfold getitem. by intros ->. Qed.

Lemma Ok_singleton_inj `{Countable K} {V : Type} (k : K) (x y : V) :
  Ok ({[k := x]} : gmap K V) = Ok {[k := y]} → x = y.
Proof.
  intros Heq.
  apply (f_equal (fun r => match r with Ok m => m !! k | Raise _ => None end))
    in Heq.
  rewrite !lookup_singleton_eq in Heq. congruence.
Qed.

Lemma py_div_nonzero x y : y ≠ 0%R → py_div x y = Ok (x / y)%R.
Proof. intros Hy. unfold py_div. by destruct (decide (y = 0%R)). Qed.

Lemma py_div_zero x : py_div x 0 = Raise ZeroDivisionError.
Proof. unfold py_div. by destruct (decide (0%R = 0%R)). Qed.

(** ** The binary64 range *)

Lemma float_huge_ge_pow (k : nat) : k ≤ 1023 → (2 ^ k <= float_huge)%R.
Proof.
  intros Hk. unfold float_huge.
  change (2 ^ 1024)%R with (2 * 2 ^ 1023)%R.
  assert (2 ^ k <= 2 ^ 1023)%R by (apply Rle_pow; [lra | done]).
  assert (2 ^ 970 <= 2 ^ 1023)%R by (apply Rle_pow; [lra | lia]).
  lra.
Qed.

Lemma float_huge_lt_pow (k : nat) : 1024 ≤ k → (float_huge < 2 ^ k)%R.
Proof.
  intros Hk. unfold float_huge.
  assert (2 ^ 1024 <= 2 ^ k)%R by (apply Rle_pow; [lra | done]).
  assert (0 < 2 ^ 970)%R by (apply pow_lt; lra).
  lra.
Qed.

Lemma float_tiny_pos : (0 < float_tiny)%R.
Proof. unfold float_tiny. apply Rinv_0_lt_compat, pow_lt. lra. Qed.

Lemma float_tiny_lt_1 : (float_tiny < 1)%R.
Proof.
  unfold float_tiny. rewrite <- Rinv_1.
  apply Rinv_lt_contravar; [|apply Rlt_pow_R1; [lra | lia]].
  rewrite Rmult_1_l. apply pow_lt. lra.
Qed.

Lemma float_huge_gt (x : R) : (x <= 16)%R → (x < float_huge)%R.
Proof.
  intros Hx. pose proof (float_huge_ge_pow 5 ltac:(lia)) as H.
  simpl in H. lra.
Qed.

Lemma in_float_range_mid (r : R) : (1 <= r <= 16)%R → in_float_range r.
Proof.
  intros Hr. split; [pose proof float_tiny_lt_1; lra | apply float_huge_gt; lra].
Qed.

Lemma flush_tiny_in_range (r : R) : in_float_range r → flush_tiny r = r.
Proof. intros [Hr _]. unfold flush_tiny. rewrite decide_False; [done | lra]. Qed.

Lemma flush_tiny_bounds (r : R) : (0 <= r)%R → (0 <= flush_tiny r <= r)%R.
Proof. intros Hr. unfold flush_tiny. destruct (decide _); lra. Qed.

Lemma flush_tiny_mono (r r' : R) :
  (r <= r')%R → (flush_tiny r <= flush_tiny r')%R.
Proof.
  intros Hr. pose proof float_tiny_pos. unfold flush_tiny.
  do 2 destruct (decide _); lra.
Qed.

Lemma float_round_no_overflow (r : R) :
  (r < float_huge)%R → float_round r = Ok (flush_tiny r).
Proof. intros Hr. unfold float_round. rewrite decide_False; [done | lra]. Qed.

Lemma float_round_in_range (r : R) : in_float_range r → float_round r = Ok r.
Proof.
  intros Hr. rewrite float_round_no_overflow by apply Hr.
  by rewrite flush_tiny_in_range.
Qed.



Lemma py_pow_pos (pow_neg : R → R → R) x y :
  (0 < x)%R → py_pow pow_neg x y = float_round (Rpower x y).
Proof.
  intros Hx. unfold py_pow. destruct (decide (y = 0%R)) as [->|Hy].
  - rewrite Rpower_O by done. symmetry. apply float_round_in_range.
    apply in_float_range_mid. lra.
  - rewrite decide_False by lra. by rewrite decide_True.
Qed.

Lemma py_pow_in_range (pow_neg : R → R → R) x y :
  (0 < x)%R → in_float_range (Rpower x y) →
  py_pow pow_neg x y = Ok (Rpower x y).
Proof. intros Hx Hr. by rewrite py_pow_pos, float_round_in_range. Qed.



Lemma py_pow_zero_base (pow_neg : R → R → R) y :
  (0 < y)%R → py_pow pow_neg 0 y = Ok 0%R.
Proof.
  intros Hy. unfold py_pow.
  rewrite decide_False by lra. rewrite decide_True by done.
  by rewrite decide_False by lra.
Qed.

Lemma py_pow_zero_neg (pow_neg : R → R → R) y :
  (y < 0)%R → py_pow pow_neg 0 y = Raise ZeroDivisionError.
Proof.
  intros Hy. unfold py_pow. rewrite decide_False by lra.
  rewrite decide_True by done. by rewrite decide_True.
Qed.


Lemma Rpower_nonzero x y : Rpower x y ≠ 0%R.
Proof. unfold Rpower. pose proof (exp_pos (y * ln x)). lra. Qed.

Lemma Rpower_pos x y : (0 < Rpower x y)%R.
Proof. unfold Rpower. apply exp_pos. Qed.

(** [x^1.1] stays in the range of the floats for an [x] between 1 and 4. *)
Lemma Rpower_11_10_in_range (x : R) :
  (1 <= x <= 4)%R → in_float_range (Rpower x (11 / 10)).
Proof.
  intros Hx. apply in_float_range_mid. split.
  - rewrite <- (Rpower_O x) by lra. apply Rle_Rpower; lra.
  - apply Rle_trans with (Rpower x 2).
    + apply Rle_Rpower; lra.
    + replace 2%R with (INR 2) by (simpl; lra). rewrite Rpower_pow by lra.
      simpl. nra.
Qed.


(** [e^2000] is too large for a float. *)
Lemma exp_2000_overflow : (float_huge <= exp 2000)%R.
Proof.
  assert (Hln : (ln 2 < 1)%R).
  { replace 1%R with (ln (exp 1)) by apply ln_exp. apply ln_increasing; [lra|].
    pose proof (exp_ineq1 1). lra. }
  assert (Hle : (2 ^ 2000 < exp 2000)%R).
  { rewrite <- (Rpower_pow 2000 2) by lra. unfold Rpower.
    apply exp_increasing. rewrite INR_IZR_INZ.
    change (Z.of_nat 2000) with 2000%Z. lra. }
  pose proof (float_huge_lt_pow 2000 ltac:(lia)). lra.
Qed.

(** ** TopDown *)

Lemma count_values_from (mfs : list Microfeature) (acc : gmap string nat) d :
  foldl count_step acc mfs !! d =
  match acc !! d with
  | Some n => Some (n + length (filter (fun f => dim f = d) mfs))%nat
  | None =>
      match length (filter (fun f => dim f = d) mfs) with
      | O => None
      | S k => Some (S k)
      end
  end.
Proof.
  revert acc. induction mfs as [|f mfs IH]; intros acc; simpl.
  - destruct (acc !! d); [f_equal; lia | done].
  - rewrite IH. unfold count_step. rewrite filter_cons.
    destruct (decide (dim f = d)) as [->|Hne]; simpl.
    + destruct (acc !! d) as [n|] eqn:E.
      * rewrite lookup_insert_eq. f_equal. lia.
      * by rewrite lookup_insert_eq.
    + destruct (acc !! dim f); by rewrite lookup_insert_ne.
Qed.

Lemma count_values_member (chunk : Chunk) f :
  f ∈ microfeatures chunk →
  count_values (microfeatures chunk) !! dim f = Some (count_dim chunk (dim f))
  ∧ (0 < count_dim chunk (dim f))%nat.
Proof.
  intros Hf. unfold count_values, count_dim.
  rewrite count_values_from, lookup_empty.
  assert (Hin : f ∈ filter (fun g => dim g = dim f) (microfeatures chunk)).
  { apply list_elem_of_filter. done. }
  destruct (filter _ _) as [|g l]; [by apply not_elem_of_nil in Hin|].
  simpl. split; [done | lia].
Qed.

Lemma TopDown_step_member (chunk : Chunk) (s : R) (acc : gmap Node R) f w :
  f ∈ microfeatures chunk →
  dim2weight chunk !! dim f = Some w →
  TopDown_step (TopDown_init chunk) s acc f =
  Ok (<[NFeature f := (s * w / INR (count_dim chunk (dim f)))%R]> acc).
Proof.
  intros Hf Hw. destruct (count_values_member chunk f Hf) as [Hcnt Hpos].
  unfold TopDown_step, TopDown_init. simpl.
  rewrite (getitem_Some _ _ _ Hw), bind_Ok.
  rewrite (getitem_Some _ _ _ Hcnt), bind_Ok.
  rewrite py_div_nonzero by (apply not_0_INR; lia).
  done.
Qed.

Lemma TopDown_loop (chunk : Chunk) (s : R) (l : list Microfeature)
    (acc : gmap Node R) :
  (∀ f, f ∈ l → f ∈ microfeatures chunk) →
  weights_cover chunk →
  ∃ m, for_each (TopDown_step (TopDown_init chunk) s) acc l = Ok m
       ∧ dom m = dom acc ∪ list_to_set (NFeature <$> l)
       ∧ (∀ f w, f ∈ l → dim2weight chunk !! dim f = Some w →
            m !! NFeature f = Some (s * w / INR (count_dim chunk (dim f)))%R)
       ∧ (∀ k, k ∉ NFeature <$> l → m !! k = acc !! k).
Proof.
  intros Hl Hcov. revert acc Hl.
  induction l as [|x l IH]; intros acc Hl.
  - exists acc. simpl. split_and!; [done | set_solver | | done].
    intros f w Hf. by apply not_elem_of_nil in Hf.
  - assert (Hx : x ∈ microfeatures chunk) by (apply Hl; left).
    destruct (Hcov x Hx) as [wx Hwx].
    cbn [for_each]. rewrite (TopDown_step_member _ _ _ _ _ Hx Hwx), bind_Ok.
    destruct (IH (<[NFeature x := (s * wx / INR (count_dim chunk (dim x)))%R]> acc))
      as (m & Hm & Hdom & Hval & Hrest).
    { intros f Hf. apply Hl. by right. }
    exists m. split_and!; [done | | | ].
    + rewrite Hdom, dom_insert_L. set_solver.
    + intros f w Hf Hw. destruct (decide (f ∈ l)) as [Hfl|Hfl].
      * by apply Hval.
      * assert (f = x) as -> by set_solver.
        rewrite Hrest, lookup_insert_eq; [congruence|].
        intros Hin. apply list_elem_of_fmap in Hin as (g & Hg & Hgl).
        congruence.
    + intros k Hk. rewrite Hrest by set_solver.
      apply lookup_insert_ne. set_solver.
Qed.

(** C1.  For a chunk whose weights cover its dimensions: on an input map that
    holds the chunk with strength [s], [TopDown] returns a map whose keys are
    exactly the chunk's microfeatures, each [f] carrying
    [s * weight(dim f) / count(dim f)], where [count d] is the number of the
    chunk's microfeatures of dimension [d]; on an input map that does not
    hold the chunk, it returns the empty map. *)
Theorem TopDown_call_spec (chunk : Chunk) (input_map : gmap Node R) :
  weights_cover chunk →
  (∀ s, input_map !! chunk_node chunk = Some s →
     ∃ m, TopDown_call (TopDown_init chunk) input_map = Ok m
          ∧ dom m = list_to_set (NFeature <$> microfeatures chunk)
          ∧ ∀ f w, f ∈ microfeatures chunk →
                   dim2weight chunk !! dim f = Some w →
                   m !! NFeature f =
                   Some (s * w / INR (count_dim chunk (dim f)))%R)
  ∧ (input_map !! chunk_node chunk = None →
     TopDown_call (TopDown_init chunk) input_map = Ok ∅).
Proof.
  intros Hcov. split.
  - intros s Hs. unfold TopDown_call. cbn [TopDown_init td_chunk]. rewrite Hs.
    destruct (TopDown_loop chunk s (microfeatures chunk) ∅) as (m & Hm & Hdom & Hval & _);
      [done | done |].
    exists m. split_and!; [done | | done].
    rewrite Hdom, dom_empty_L. set_solver.
  - intros Hnone. unfold TopDown_call. cbn [TopDown_init td_chunk]. by rewrite Hnone.
Qed.

(** ** Insertion-ordered dictionaries: basic facts *)

Lemma od_get_set {K V : Type} `{EqDecision K} (d : list (K * V)) k v k' :
  od_get (od_set k v d) k' = if decide (k' = k) then Some v else od_get d k'.
Proof.
  induction d as [|[k0 v0] d IH]; simpl.
  - by destruct (decide (k' = k)).
  - destruct (decide (k = k0)) as [->|Hne]; simpl.
    + by destruct (decide (k' = k0)).
    + rewrite IH. destruct (decide (k' = k0)) as [->|?]; [|done].
      by destruct (decide (k0 = k)).
Qed.

Lemma od_get_is_Some {K V : Type} `{EqDecision K} (d : list (K * V)) k :
  is_Some (od_get d k) ↔ k ∈ d.*1.
Proof.
  induction d as [|[k0 v0] d IH]; simpl.
  - split; [by intros [? ?] | by intros ?%not_elem_of_nil].
  - destruct (decide (k = k0)) as [->|Hne].
    + split; [intros _; left | by eauto].
    + rewrite IH. set_solver.
Qed.

Lemma od_set_keys {K V : Type} `{EqDecision K} (d : list (K * V)) k v :
  (od_set k v d).*1 =
  match od_get d k with Some _ => d.*1 | None => d.*1 ++ [k] end.
Proof.
  induction d as [|[k0 v0] d IH]; simpl; [done|].
  destruct (decide (k = k0)) as [->|Hne]; csimpl; [done|].
  rewrite IH. by destruct (od_get d k).
Qed.

Lemma od_getitem_Some {K V : Type} `{EqDecision K} (d : list (K * V)) k v :
  od_get d k = Some v → od_getitem d k = Ok v.
Proof. unfold od_getitem. by intros ->. Qed.

Lemma od_getitem_None {K V : Type} `{EqDecision K} (d : list (K * V)) k :
  od_get d k = None → od_getitem d k = Raise KeyError.
Proof. unfold od_getitem. by intros ->. Qed.

(** ** Sums *)

Lemma sum_over_cons {A : Type} (f : A → R) x (l : list A) :
  sum_over f (x :: l) = (f x + sum_over f l)%R.
Proof. reflexivity. Qed.

Lemma sum_over_perm {A : Type} (f : A → R) (l l' : list A) :
  l ≡ₚ l' → sum_over f l = sum_over f l'.
Proof.
  induction 1 as [|x l l' _ IH|x y l|l l' l'' _ IH1 _ IH2]; simpl;
    [done | rewrite IH; done | lra | congruence].
Qed.

Lemma sum_over_ext {A : Type} (f g : A → R) (l : list A) :
  (∀ x, x ∈ l → f x = g x) → sum_over f l = sum_over g l.
Proof.
  induction l as [|x l IH]; intros Hfg; simpl; [done|].
  rewrite Hfg by left. rewrite IH; [done|]. intros y Hy. apply Hfg. by right.
Qed.

Lemma sum_over_fmap {A B : Type} (g : A → B) (f : B → R) (l : list A) :
  sum_over f (g <$> l) = sum_over (fun x => f (g x)) l.
Proof. induction l as [|x l IH]; csimpl; [done | by rewrite IH]. Qed.

Lemma foldl_Rplus_sum (l : list R) (acc : R) :
  foldl Rplus acc l = (acc + sum_over id l)%R.
Proof.
  revert acc. induction l as [|x l IH]; intros acc; simpl.
  - lra.
  - rewrite IH. unfold id. lra.
Qed.

Lemma py_sum_sum_over (l : list R) : py_sum l = sum_over id l.
Proof. unfold py_sum. rewrite foldl_Rplus_sum. lra. Qed.

Lemma sum_over_nonneg {A : Type} (f : A → R) (l : list A) :
  (∀ x, x ∈ l → (0 <= f x)%R) → (0 <= sum_over f l)%R.
Proof.
  induction l as [|x l IH]; intros Hf; simpl; [lra|].
  assert (0 <= f x)%R by (apply Hf; left).
  assert (0 <= sum_over f l)%R by (apply IH; intros y Hy; apply Hf; by right).
  lra.
Qed.

Lemma keys_map_to_list_perm `{Countable K} {V : Type} (m : gmap K V) :
  (map_to_list m).*1 ≡ₚ elements (dom m).
Proof.
  apply NoDup_Permutation.
  - apply NoDup_fst_map_to_list.
  - apply NoDup_elements.
  - intros d. rewrite elem_of_elements, elem_of_dom, list_elem_of_fmap.
    split.
    + intros ([d' w] & -> & Hin). apply elem_of_map_to_list in Hin. by exists w.
    + intros [w Hw]. exists (d, w). split; [done|]. by apply elem_of_map_to_list.
Qed.

Lemma weight_total_weight_sum (chunk : Chunk) :
  weight_total chunk = weight_sum chunk.
Proof.
  unfold weight_total, weight_sum.
  rewrite py_sum_sum_over, sum_over_fmap.
  rewrite <- (sum_over_perm _ _ _ (keys_map_to_list_perm (dim2weight chunk))).
  rewrite sum_over_fmap. apply sum_over_ext.
  intros [d w] Hin. apply elem_of_map_to_list in Hin.
  unfold weight, id. simpl. by rewrite Hin.
Qed.

(** ** BottomUp *)

Lemma BottomUp_step_eq (input_map : gmap Node R) (d2a : list (string * R)) f :
  BottomUp_step input_map d2a f =
  Ok (match input_map !! NFeature f with
      | None => d2a
      | Some x =>
          match od_get d2a (dim f) with
          | Some cur =>
              if decide (cur < x)%R then od_set (dim f) x d2a else d2a
          | None => od_set (dim f) x d2a
          end
      end).
Proof.
  unfold BottomUp_step, od_getitem, getitem.
  destruct (od_get d2a (dim f)) as [cur|], (input_map !! NFeature f) as [x|];
    simpl; try done.
  by destruct (decide (cur < x)%R).
Qed.

Lemma present_activations_snoc mfs (input_map : gmap Node R) f d :
  present_activations (mfs ++ [f]) input_map d =
  present_activations mfs input_map d ++
  (if decide (dim f = d)
   then match input_map !! NFeature f with Some x => [x] | None => [] end
   else []).
Proof.
  unfold present_activations. rewrite omap_app. f_equal. simpl.
  destruct (decide (dim f = d)); [|done].
  by destruct (input_map !! NFeature f).
Qed.

Lemma d2a_inv_nil (input_map : gmap Node R) : d2a_inv input_map [] [].
Proof. split; [constructor | done]. Qed.

Lemma d2a_inv_step (input_map : gmap Node R) seen d2a f :
  d2a_inv input_map seen d2a →
  ∃ d2a', BottomUp_step input_map d2a f = Ok d2a'
          ∧ d2a_inv input_map (seen ++ [f]) d2a'.
Proof.
  intros [Hnd Hinv]. rewrite BottomUp_step_eq. eexists. split; [done|].
  destruct (input_map !! NFeature f) as [x|] eqn:Hx.
  - pose proof (Hinv (dim f)) as Hf.
    destruct (od_get d2a (dim f)) as [cur|] eqn:Hcur.
    + destruct Hf as [Hin Hub].
      destruct (decide (cur < x)%R) as [Hlt|Hge].
      * split.
        { by rewrite od_set_keys, Hcur. }
        intros d. rewrite od_get_set, present_activations_snoc, Hx.
        destruct (decide (d = dim f)) as [->|Hne].
        -- rewrite decide_True by done. split; [set_solver|].
           intros y [Hy| ->%list_elem_of_singleton]%elem_of_app; [|lra].
           apply Hub in Hy. lra.
        -- rewrite decide_False by done. rewrite app_nil_r. apply Hinv.
      * split; [done|].
        intros d. rewrite present_activations_snoc, Hx.
        destruct (decide (dim f = d)) as [<-|Hne].
        -- rewrite Hcur. split; [set_solver|].
           intros y [Hy| ->%list_elem_of_singleton]%elem_of_app; [|lra].
           by apply Hub.
        -- rewrite app_nil_r. apply Hinv.
    + split.
      { rewrite od_set_keys, Hcur. apply NoDup_app. split_and!; [done| |apply NoDup_singleton].
        intros k Hk ->%list_elem_of_singleton.
        apply od_get_is_Some in Hk. rewrite Hcur in Hk. by destruct Hk. }
      intros d. rewrite od_get_set, present_activations_snoc, Hx.
      destruct (decide (d = dim f)) as [->|Hne].
      * rewrite decide_True by done. rewrite Hf. simpl. split; [set_solver|].
        intros y ->%list_elem_of_singleton. lra.
      * rewrite decide_False by done. rewrite app_nil_r. apply Hinv.
  - split; [done|].
    intros d. rewrite present_activations_snoc, Hx.
    destruct (decide (dim f = d)); rewrite app_nil_r; apply Hinv.
Qed.

Lemma d2a_inv_loop (input_map : gmap Node R) l seen d2a :
  d2a_inv input_map seen d2a →
  ∃ d2a', for_each (BottomUp_step input_map) d2a l = Ok d2a'
          ∧ d2a_inv input_map (seen ++ l) d2a'.
Proof.
  revert seen d2a. induction l as [|f l IH]; intros seen d2a Hinv.
  - exists d2a. by rewrite app_nil_r.
  - destruct (d2a_inv_step _ _ _ f Hinv) as (d2a1 & Hstep & Hinv1).
    destruct (IH _ _ Hinv1) as (d2a' & Hloop & Hinv').
    exists d2a'. cbn [for_each]. rewrite Hstep, bind_Ok.
    by rewrite <- app_assoc in Hinv'.
Qed.

Lemma present_dims_activations mfs (input_map : gmap Node R) d :
  d ∈ present_dims mfs input_map ↔ present_activations mfs input_map d ≠ [].
Proof.
  unfold present_dims, present_activations.
  rewrite elem_of_list_to_set, list_elem_of_fmap. split.
  - intros (f & -> & [[x Hx] Hf]%list_elem_of_filter) Hnil.
    assert (Hin : x ∈ omap (fun g => if decide (dim g = dim f)
                                     then input_map !! NFeature g else None) mfs).
    { apply list_elem_of_omap. exists f. by rewrite decide_True. }
    rewrite Hnil in Hin. by apply not_elem_of_nil in Hin.
  - intros Hne. destruct (omap _ mfs) as [|x xs] eqn:E; [done|].
    assert (Hin : x ∈ x :: xs) by left. rewrite <- E in Hin.
    apply list_elem_of_omap in Hin as (f & Hf & Hfx).
    destruct (decide (dim f = d)) as [<-|]; [|done].
    exists f. split; [done|]. apply list_elem_of_filter. split; [by eexists | done].
Qed.

Lemma d2a_inv_keys (input_map : gmap Node R) mfs d2a d :
  d2a_inv input_map mfs d2a →
  d ∈ d2a.*1 ↔ d ∈ present_dims mfs input_map.
Proof.
  intros [_ Hinv]. rewrite <- od_get_is_Some, present_dims_activations.
  specialize (Hinv d). destruct (od_get d2a d) as [v|].
  - destruct Hinv as [Hin _]. split; [|by eauto].
    intros _ Hnil. rewrite Hnil in Hin. by apply not_elem_of_nil in Hin.
  - split; [by intros [? ?] | done].
Qed.

Lemma d2a_inv_max (input_map : gmap Node R) mfs d2a d v :
  d2a_inv input_map mfs d2a →
  od_get d2a d = Some v → v = max_activation mfs input_map d.
Proof.
  intros [_ Hinv] Hv. specialize (Hinv d). rewrite Hv in Hinv.
  destruct Hinv as [Hin Hub]. unfold max_activation.
  apply Rle_antisym.
  - apply MaxRlist_P1. by apply list_elem_of_In.
  - apply Hub. apply list_elem_of_In. apply MaxRlist_P2.
    exists v. by apply list_elem_of_In.
Qed.

Lemma BottomUp_strength_step_Ok (self : BottomUp) d2a (acc : R) d w a :
  dim2weight (bu_chunk self) !! d = Some w →
  od_get d2a d = Some a →
  BottomUp_strength_step self d2a acc d = Ok (acc + w * a)%R.
Proof.
  intros Hw Ha. unfold BottomUp_strength_step.
  by rewrite (getitem_Some _ _ _ Hw), bind_Ok, (od_getitem_Some _ _ _ Ha).
Qed.

Lemma BottomUp_strength_step_KeyError (self : BottomUp) d2a (acc : R) d :
  dim2weight (bu_chunk self) !! d = None →
  BottomUp_strength_step self d2a acc d = Raise KeyError.
Proof.
  intros Hw. unfold BottomUp_strength_step. by rewrite (getitem_None _ _ Hw).
Qed.

Lemma strength_loop_Ok (self : BottomUp) d2a (l : list string) (acc : R) :
  (∀ d, d ∈ l → is_Some (dim2weight (bu_chunk self) !! d)
                ∧ is_Some (od_get d2a d)) →
  for_each (BottomUp_strength_step self d2a) acc l =
  Ok (acc + sum_over (fun d => weight (bu_chunk self) d
                               * default 0 (od_get d2a d)) l)%R.
Proof.
  revert acc. induction l as [|d l IH]; intros acc Hl; cbn [for_each].
  - simpl. f_equal. lra.
  - destruct (Hl d) as [[w Hw] [a Ha]]; [left|].
    rewrite (BottomUp_strength_step_Ok _ _ _ _ _ _ Hw Ha), bind_Ok.
    rewrite IH by (intros d' Hd'; apply Hl; by right).
    rewrite sum_over_cons. unfold weight at 2. rewrite Hw, Ha. simpl.
    f_equal. lra.
Qed.

Lemma strength_loop_KeyError (self : BottomUp) d2a (l : list string) (acc : R) :
  (∀ d, d ∈ l → is_Some (od_get d2a d)) →
  (∃ d, d ∈ l ∧ dim2weight (bu_chunk self) !! d = None) →
  for_each (BottomUp_strength_step self d2a) acc l = Raise KeyError.
Proof.
  revert acc. induction l as [|d l IH]; intros acc Hl (d0 & Hd0 & Hnone).
  - by apply not_elem_of_nil in Hd0.
  - cbn [for_each].
    destruct (dim2weight (bu_chunk self) !! d) as [w|] eqn:Hw.
    + destruct (Hl d) as [a Ha]; [left|].
      rewrite (BottomUp_strength_step_Ok _ _ _ _ _ _ Hw Ha), bind_Ok.
      apply IH; [intros d' Hd'; apply Hl; by right|].
      exists d0. split; [|done].
      apply elem_of_cons in Hd0 as [->|]; [congruence | done].
    + by rewrite (BottomUp_strength_step_KeyError _ _ _ _ Hw).
Qed.

(** The loops of [BottomUp.__call__] compute [BottomUp_spec]. *)
Lemma BottomUp_call_spec (pow_neg : R → R → R) (chunk : Chunk)
    (input_map : gmap Node R) :
  BottomUp_call pow_neg (BottomUp_init chunk) input_map =
  BottomUp_spec pow_neg chunk input_map.
Proof.
  unfold BottomUp_call, BottomUp_spec, BottomUp_init. cbn [bu_chunk].
  destruct (d2a_inv_loop input_map (microfeatures chunk) [] [] (d2a_inv_nil _))
    as (d2a & Hloop & Hinv).
  rewrite app_nil_l in Hinv. rewrite Hloop, bind_Ok.
  assert (Hperm : d2a.*1 ≡ₚ elements (present_dims (microfeatures chunk) input_map)).
  { apply NoDup_Permutation; [apply Hinv | apply NoDup_elements |].
    intros d. rewrite elem_of_elements. by apply d2a_inv_keys. }
  assert (Hsome : ∀ d, d ∈ d2a.*1 → is_Some (od_get d2a d)).
  { intros d. by rewrite od_get_is_Some. }
  destruct (decide (Forall _ _)) as [Hall|Hnall].
  - rewrite strength_loop_Ok.
    2:{ intros d Hd. split; [|by apply Hsome].
        rewrite Forall_forall in Hall. apply Hall. by rewrite <- Hperm. }
    rewrite bind_Ok, weight_total_weight_sum.
    replace (0 + sum_over _ d2a.*1)%R with (weighted_evidence chunk input_map); [done|].
    unfold weighted_evidence. rewrite <- (sum_over_perm _ _ _ Hperm), Rplus_0_l.
    apply sum_over_ext. intros d Hd. destruct (Hsome d Hd) as [v Hv].
    rewrite Hv. simpl. by rewrite (d2a_inv_max _ _ _ _ _ Hinv Hv).
  - rewrite strength_loop_KeyError; [done | done |].
    apply not_Forall_Exists in Hnall; [|intros d; apply _].
    apply Exists_exists in Hnall as (d & Hd & Hnone).
    exists d. split; [by rewrite Hperm|].
    by apply eq_None_not_Some.
Qed.

Lemma weights_cover_present (chunk : Chunk) (input_map : gmap Node R) :
  weights_cover chunk →
  Forall (fun d => is_Some (dim2weight chunk !! d))
         (elements (present_dims (microfeatures chunk) input_map)).
Proof.
  intros Hcov. apply Forall_forall. intros d.
  rewrite elem_of_elements. unfold present_dims.
  rewrite elem_of_list_to_set, list_elem_of_fmap.
  intros (f & -> & [_ Hf]%list_elem_of_filter). by apply Hcov.
Qed.


Lemma BottomUp_call_pos (pow_neg : R → R → R) (chunk : Chunk)
    (input_map : gmap Node R) :
  weights_cover chunk →
  (0 < weight_sum chunk)%R →
  in_float_range (Rpower (weight_sum chunk) (11 / 10)) →
  BottomUp_call pow_neg (BottomUp_init chunk) input_map =
  Ok {[chunk_node chunk :=
         (weighted_evidence chunk input_map
          / Rpower (weight_sum chunk) (11 / 10))%R]}.
Proof.
  intros Hcov Hpos Hrange. rewrite BottomUp_call_spec. unfold BottomUp_spec.
  rewrite decide_True by by apply weights_cover_present.
  rewrite py_pow_in_range by done. rewrite bind_Ok.
  rewrite py_div_nonzero by apply Rpower_nonzero. done.
Qed.




Lemma BottomUp_call_zero (pow_neg : R → R → R) (chunk : Chunk)
    (input_map : gmap Node R) :
  weights_cover chunk →
  weight_sum chunk = 0%R →
  BottomUp_call pow_neg (BottomUp_init chunk) input_map =
  Raise ZeroDivisionError.
Proof.
  intros Hcov Hz. rewrite BottomUp_call_spec. unfold BottomUp_spec.
  rewrite decide_True by by apply weights_cover_present.
  rewrite Hz, py_pow_zero_base by lra. rewrite bind_Ok.
  by rewrite py_div_zero.
Qed.

Lemma weighted_evidence_no_dims (chunk : Chunk) (input_map : gmap Node R) :
  present_dims (microfeatures chunk) input_map = ∅ →
  weighted_evidence chunk input_map = 0%R.
Proof. intros HD. unfold weighted_evidence. by rewrite HD, elements_empty. Qed.

Lemma MaxRlist_perm (l l' : list R) : l ≡ₚ l' → MaxRlist l = MaxRlist l'.
Proof.
  intros Hperm. destruct l as [|x l].
  - apply Permutation_nil_l in Hperm. by subst.
  - destruct l' as [|x' l']; [by apply Permutation_nil_r in Hperm|].
    apply Rle_antisym; apply MaxRlist_P1.
    + apply list_elem_of_In. rewrite <- Hperm. apply list_elem_of_In.
      apply MaxRlist_P2. exists x. by left.
    + apply list_elem_of_In. rewrite Hperm. apply list_elem_of_In.
      apply MaxRlist_P2. exists x'. by left.
Qed.

Lemma present_dims_perm mfs mfs' (input_map : gmap Node R) :
  mfs ≡ₚ mfs' → present_dims mfs input_map = present_dims mfs' input_map.
Proof. intros Hperm. unfold present_dims. by rewrite Hperm. Qed.

Lemma max_activation_perm mfs mfs' (input_map : gmap Node R) d :
  mfs ≡ₚ mfs' → max_activation mfs input_map d = max_activation mfs' input_map d.
Proof.
  intros Hperm. unfold max_activation, present_activations.
  apply MaxRlist_perm. by rewrite Hperm.
Qed.

Lemma BottomUp_spec_perm (pow_neg : R → R → R) (c c' : Chunk)
    (input_map : gmap Node R) :
  chunk_id c = chunk_id c' →
  dim2weight c = dim2weight c' →
  microfeatures c ≡ₚ microfeatures c' →
  BottomUp_spec pow_neg c input_map = BottomUp_spec pow_neg c' input_map.
Proof.
  intros Hid Hw Hperm.
  assert (Hev : weighted_evidence c input_map = weighted_evidence c' input_map).
  { unfold weighted_evidence, weight.
    rewrite Hw, (present_dims_perm _ _ _ Hperm).
    apply sum_over_ext. intros d _.
    by rewrite (max_activation_perm _ _ _ _ Hperm). }
  assert (Hws : weight_sum c = weight_sum c').
  { unfold weight_sum, weight. by rewrite Hw. }
  unfold BottomUp_spec, chunk_node.
  by rewrite Hid, Hw, Hev, Hws, (present_dims_perm _ _ _ Hperm).
Qed.

Lemma max_activation_is_max mfs (input_map : gmap Node R) d :
  d ∈ present_dims mfs input_map →
  (∃ f, f ∈ mfs ∧ dim f = d
        ∧ input_map !! NFeature f = Some (max_activation mfs input_map d))
  ∧ (∀ f x, f ∈ mfs → dim f = d → input_map !! NFeature f = Some x →
       (x <= max_activation mfs input_map d)%R).
Proof.
  intros Hd. apply present_dims_activations in Hd. unfold max_activation. split.
  - assert (Hin : MaxRlist (present_activations mfs input_map d)
                  ∈ present_activations mfs input_map d).
    { apply list_elem_of_In, MaxRlist_P2.
      destruct (present_activations mfs input_map d) as [|x l]; [done|].
      exists x. by left. }
    apply list_elem_of_omap in Hin as (f & Hf & Hfx).
    destruct (decide (dim f = d)); [|done]. by exists f.
  - intros f x Hf Hdim Hx. apply MaxRlist_P1, list_elem_of_In.
    apply list_elem_of_omap. exists f. by rewrite decide_True.
Qed.

Lemma elements_pair (d1 d2 : string) :
  d1 ≠ d2 → elements ({[d1; d2]} : gset string) ≡ₚ [d1; d2].
Proof.
  intros Hne. apply NoDup_Permutation.
  - apply NoDup_elements.
  - apply NoDup_cons. split; [set_solver|]. apply NoDup_singleton.
  - intros d. rewrite elem_of_elements. set_solver.
Qed.

Lemma BottomUp_two_dims (pow_neg : R → R → R) (chunk : Chunk)
    (input_map : gmap Node R) (d1 d2 : string) (w : R) :
  d1 ≠ d2 →
  dim2weight chunk = {[d1 := w; d2 := w]} →
  (0 < w)%R →
  in_float_range (Rpower (2 * w) (11 / 10)) →
  present_dims (microfeatures chunk) input_map = {[d1; d2]} →
  BottomUp_call pow_neg (BottomUp_init chunk) input_map =
  Ok {[chunk_node chunk :=
         (w * (max_activation (microfeatures chunk) input_map d1
               + max_activation (microfeatures chunk) input_map d2)
          / Rpower (2 * w) (11 / 10))%R]}.
Proof.
  intros Hne Hw Hpos Hrange HD.
  assert (Hw1 : weight chunk d1 = w).
  { unfold weight. rewrite Hw. by simplify_map_eq. }
  assert (Hw2 : weight chunk d2 = w).
  { unfold weight. rewrite Hw. by simplify_map_eq. }
  assert (Hsum : weight_sum chunk = (2 * w)%R).
  { unfold weight_sum. rewrite Hw, dom_insert_L, dom_singleton_L.
    rewrite (sum_over_perm _ _ _ (elements_pair d1 d2 Hne)). simpl.
    rewrite Hw1, Hw2. lra. }
  assert (Hev : weighted_evidence chunk input_map =
                (w * (max_activation (microfeatures chunk) input_map d1
                      + max_activation (microfeatures chunk) input_map d2))%R).
  { unfold weighted_evidence. rewrite HD.
    rewrite (sum_over_perm _ _ _ (elements_pair d1 d2 Hne)). simpl.
    rewrite Hw1, Hw2. lra. }
  rewrite BottomUp_call_spec. unfold BottomUp_spec.
  rewrite decide_True.
  2:{ apply Forall_forall. intros d. rewrite HD, elem_of_elements, Hw.
      intros [->%elem_of_singleton| ->%elem_of_singleton]%elem_of_union;
        by simplify_map_eq. }
  rewrite Hsum, Hev, py_pow_in_range by (done || lra). rewrite bind_Ok.
  by rewrite py_div_nonzero by apply Rpower_nonzero.
Qed.

(** ** Evaluation of concrete instances *)

Lemma weights_cover_bw_square : weights_cover bw_square_chunk.
Proof.
  intros f Hf. unfold bw_square_chunk in *. simpl in *.
  set_unfold. destruct Hf as [->|[->|[->|[]]]]; simpl; by simplify_map_eq.
Qed.

Lemma weights_cover_zero_weight : weights_cover zero_weight_chunk.
Proof.
  intros f Hf. unfold zero_weight_chunk in *. simpl in *.
  set_unfold. destruct Hf as [->|[]]; simpl; by simplify_map_eq.
Qed.

Lemma weights_nonneg_zero_weight : weights_nonneg zero_weight_chunk.
Proof.
  intros d w. unfold zero_weight_chunk. simpl.
  intros [_ <-]%lookup_singleton_Some. lra.
Qed.

Lemma weights_nonneg_bw_square : weights_nonneg bw_square_chunk.
Proof.
  intros d w. unfold bw_square_chunk. simpl.
  intros [[_ <-]|[_ [_ <-]%lookup_singleton_Some]]%lookup_insert_Some; lra.
Qed.

Lemma weight_sum_zero_weight : weight_sum zero_weight_chunk = 0%R.
Proof.
  unfold weight_sum. eval_elements.
  unfold sum_over, foldr, weight, zero_weight_chunk, dim2weight.
  simplify_map_eq. simpl. lra.
Qed.

Lemma weight_sum_bw_square : weight_sum bw_square_chunk = 2%R.
Proof.
  unfold weight_sum. eval_elements.
  unfold sum_over, foldr, weight, bw_square_chunk, dim2weight.
  simplify_map_eq. simpl. lra.
Qed.

Lemma in_float_range_bw_square :
  in_float_range (Rpower (weight_sum bw_square_chunk) (11 / 10)).
Proof. rewrite weight_sum_bw_square. apply Rpower_11_10_in_range. lra. Qed.




(** ** TopDown: concrete instances and the empty chunk *)

(** TopDown on the black-or-white square at strength one: the weight of
    Color is split between its two values. *)
Lemma TopDown_call_spec_witness :
  ∃ m, TopDown_call (TopDown_init bw_square_chunk)
                    {[chunk_node bw_square_chunk := 1%R]} = Ok m
       ∧ m !! NFeature white = Some (1 / 2)%R
       ∧ m !! NFeature black = Some (1 / 2)%R
       ∧ m !! NFeature square = Some 1%R.
Proof.
  destruct (TopDown_call_spec bw_square_chunk
              {[chunk_node bw_square_chunk := 1%R]} weights_cover_bw_square)
    as [Hin _].
  destruct (Hin 1%R (lookup_singleton_eq _ _)) as (m & Hm & _ & Hval).
  exists m. split; [exact Hm|].
  split_and!.
  - rewrite (Hval white 1%R); [f_equal; simpl; lra | set_solver | done].
  - rewrite (Hval black 1%R); [f_equal; simpl; lra | set_solver | done].
  - rewrite (Hval square 1%R); [f_equal; simpl; lra | set_solver | done].
Defined.

(** C7 (as amended).  For a chunk with zero microfeatures, constructing
    TopDown succeeds (it is a total function) and calling the channel returns
    the empty map on every input, whether or not it holds the chunk: the loop
    over the microfeatures never runs, so no count is ever divided by. *)
Theorem TopDown_no_microfeatures (chunk : Chunk) (input_map : gmap Node R) :
  microfeatures chunk = [] →
  val_counts (TopDown_init chunk) = ∅
  ∧ TopDown_call (TopDown_init chunk) input_map = Ok ∅.
Proof.
  intros Hnil. unfold TopDown_call, TopDown_init. simpl. rewrite Hnil.
  split; [done|]. by destruct (input_map !! chunk_node chunk).
Qed.

Lemma TopDown_no_microfeatures_witness :
  TopDown_call (TopDown_init empty_chunk) ∅ = Ok ∅.
Proof. exact (proj2 (TopDown_no_microfeatures empty_chunk ∅ eq_refl)). Defined.

(** C7 fails as stated: the chunk without microfeatures is held by the
    input, and the call returns normally. *)
Lemma TopDown_no_microfeatures_counterexample :
  microfeatures empty_chunk = []
  ∧ ({[chunk_node empty_chunk := 1%R]} : gmap Node R) !! chunk_node empty_chunk
    = Some 1%R
  ∧ TopDown_call (TopDown_init empty_chunk) {[chunk_node empty_chunk := 1%R]}
    = Ok ∅
  ∧ ¬ ∃ e, TopDown_call (TopDown_init empty_chunk)
                        {[chunk_node empty_chunk := 1%R]} = Raise e.
Proof.
  assert (Hcall : TopDown_call (TopDown_init empty_chunk)
                    {[chunk_node empty_chunk := 1%R]} = Ok ∅).
  { unfold TopDown_call. simpl. by rewrite lookup_singleton_eq. }
  split_and!; [done | apply lookup_singleton_eq | done |].
  intros [e He]. by rewrite Hcall in He.
Qed.

(** ** BottomUp: strength, order and partiality *)

(** C2 (as amended).  For a chunk whose weights cover its dimensions, are
    not negative and sum to a positive number [W] whose power [W^1.1] is in
    the range of the floats, BottomUp returns the single-entry map
    [{chunk: strength}] with
    [strength = (Σ_{d ∈ D} weight(d) * maxActivation(d)) / (Σ_d weight(d))^1.1],
    where [D] holds the dimensions with a microfeature present in the input
    and [maxActivation d] is the largest activation among the present
    microfeatures of [d] (absent ones are skipped); when [D] is empty the
    strength is 0. *)
Theorem BottomUp_call_strength (pow_neg : R → R → R) (chunk : Chunk)
    (input_map : gmap Node R) :
  weights_cover chunk →
  weights_nonneg chunk →
  (0 < weight_sum chunk)%R →
  in_float_range (Rpower (weight_sum chunk) (11 / 10)) →
  BottomUp_call pow_neg (BottomUp_init chunk) input_map =
    Ok {[chunk_node chunk :=
           (weighted_evidence chunk input_map
            / Rpower (weight_sum chunk) (11 / 10))%R]}
  ∧ (∀ d, d ∈ present_dims (microfeatures chunk) input_map →
       (∃ f, f ∈ microfeatures chunk ∧ dim f = d
             ∧ input_map !! NFeature f
               = Some (max_activation (microfeatures chunk) input_map d))
       ∧ (∀ f x, f ∈ microfeatures chunk → dim f = d →
            input_map !! NFeature f = Some x →
            (x <= max_activation (microfeatures chunk) input_map d)%R))
  ∧ (present_dims (microfeatures chunk) input_map = ∅ →
     BottomUp_call pow_neg (BottomUp_init chunk) input_map =
       Ok {[chunk_node chunk := 0%R]}).
Proof.
  intros Hcov _ Hpos Hrange. split_and!.
  - by apply BottomUp_call_pos.
  - intros d. apply max_activation_is_max.
  - intros HD. rewrite BottomUp_call_pos by done.
    rewrite (weighted_evidence_no_dims _ _ HD).
    do 2 f_equal. unfold Rdiv. lra.
Qed.

Lemma BottomUp_call_strength_witness :
  BottomUp_call Rpower (BottomUp_init bw_square_chunk) white_square_input =
  Ok {[chunk_node bw_square_chunk :=
         (weighted_evidence bw_square_chunk white_square_input
          / Rpower (weight_sum bw_square_chunk) (11 / 10))%R]}.
Proof.
  assert (Hpos : (0 < weight_sum bw_square_chunk)%R).
  { rewrite weight_sum_bw_square. lra. }
  exact (proj1 (BottomUp_call_strength Rpower bw_square_chunk
                  white_square_input weights_cover_bw_square
                  weights_nonneg_bw_square Hpos in_float_range_bw_square)).
Defined.

(** C2 fails as stated: a chunk whose single dimension has weight zero
    satisfies the node model's invariants, yet BottomUp raises instead of
    returning a map. *)
Lemma BottomUp_call_strength_counterexample :
  weights_cover zero_weight_chunk
  ∧ weights_nonneg zero_weight_chunk
  ∧ ∀ pow_neg,
      BottomUp_call pow_neg (BottomUp_init zero_weight_chunk)
                    {[NFeature white := 1%R]}
      = Raise ZeroDivisionError.
Proof.
  split_and!.
  - apply weights_cover_zero_weight.
  - apply weights_nonneg_zero_weight.
  - intros pow_neg. apply BottomUp_call_zero.
    + apply weights_cover_zero_weight.
    + apply weight_sum_zero_weight.
Qed.

Lemma present_dims_white_square :
  present_dims (microfeatures heavy_square_chunk) white_square_input
  = {["Color"; "Shape"]}.
Proof. vm_compute. reflexivity. Qed.

Lemma in_float_range_heavy_square : in_float_range (Rpower (2 * 2) (11 / 10)).
Proof. apply Rpower_11_10_in_range. lra. Qed.

Lemma BottomUp_heavy_square (pow_neg : R → R → R) :
  BottomUp_call pow_neg (BottomUp_init heavy_square_chunk) white_square_input =
  Ok {[chunk_node heavy_square_chunk :=
         (2 * (1 + 1) / Rpower (2 * 2) (11 / 10))%R]}.
Proof.
  by rewrite (BottomUp_two_dims pow_neg heavy_square_chunk white_square_input
                "Color" "Shape" 2%R)
    by (done || lra || apply in_float_range_heavy_square
        || apply present_dims_white_square).
Qed.

(** C8 (as amended).  For a chunk with exactly two dimensions, both of
    weight [w > 0] with [(2 w)^1.1] in the range of the floats, and both with
    a microfeature present in the input, with maximal per-dimension
    activations [a] and [b], BottomUp yields the strength
    [w * (a + b) / (2 w)^1.1]; and the result of BottomUp is the same for
    every order in which the chunk's microfeatures, and hence its
    dimensions, are processed. *)
Theorem BottomUp_two_equal_dims (pow_neg : R → R → R) :
  (∀ (chunk : Chunk) (input_map : gmap Node R) (d1 d2 : string) (w : R),
     d1 ≠ d2 →
     dim2weight chunk = {[d1 := w; d2 := w]} →
     (0 < w)%R →
     in_float_range (Rpower (2 * w) (11 / 10)) →
     present_dims (microfeatures chunk) input_map = {[d1; d2]} →
     BottomUp_call pow_neg (BottomUp_init chunk) input_map =
     Ok {[chunk_node chunk :=
            (w * (max_activation (microfeatures chunk) input_map d1
                  + max_activation (microfeatures chunk) input_map d2)
             / Rpower (2 * w) (11 / 10))%R]})
  ∧ (∀ (c c' : Chunk) (input_map : gmap Node R),
       chunk_id c = chunk_id c' →
       dim2weight c = dim2weight c' →
       microfeatures c ≡ₚ microfeatures c' →
       BottomUp_call pow_neg (BottomUp_init c) input_map =
       BottomUp_call pow_neg (BottomUp_init c') input_map).
Proof.
  split.
  - intros. by apply BottomUp_two_dims.
  - intros c c' input_map Hid Hw Hperm.
    rewrite !BottomUp_call_spec. by apply BottomUp_spec_perm.
Qed.

Lemma BottomUp_two_equal_dims_witness :
  BottomUp_call Rpower (BottomUp_init heavy_square_chunk) white_square_input =
  Ok {[chunk_node heavy_square_chunk :=
         (2 * (max_activation (microfeatures heavy_square_chunk)
                              white_square_input "Color"
               + max_activation (microfeatures heavy_square_chunk)
                                white_square_input "Shape")
          / Rpower (2 * 2) (11 / 10))%R]}.
Proof.
  apply (proj1 (BottomUp_two_equal_dims Rpower)).
  - done.
  - reflexivity.
  - lra.
  - apply in_float_range_heavy_square.
  - apply present_dims_white_square.
Defined.

(** C8 fails as stated: with two dimensions of weight [w = 2], both fully
    present with maximal activations [a = b = 1], the strength is
    [2 * (1 + 1) / (2 * 2)^1.1] and not [(1 + 1) / (2 * 2)^1.1]. *)
Lemma BottomUp_two_equal_dims_counterexample :
  dim2weight heavy_square_chunk = {["Color" := 2%R; "Shape" := 2%R]}
  ∧ (∀ f, f ∈ microfeatures heavy_square_chunk →
          is_Some (white_square_input !! NFeature f))
  ∧ max_activation (microfeatures heavy_square_chunk) white_square_input
                   "Color" = 1%R
  ∧ max_activation (microfeatures heavy_square_chunk) white_square_input
                   "Shape" = 1%R
  ∧ ∀ pow_neg,
      BottomUp_call pow_neg (BottomUp_init heavy_square_chunk)
                    white_square_input
      ≠ Ok {[chunk_node heavy_square_chunk :=
               ((1 + 1) / Rpower (2 * 2) (11 / 10))%R]}.
Proof.
  split_and!; [done | | done | done |].
  - intros f Hf. unfold heavy_square_chunk, white_square_input in *.
    simpl in Hf. set_unfold. destruct Hf as [->|[->|[]]]; by simplify_map_eq.
  - intros pow_neg. rewrite BottomUp_heavy_square.
    intros H%Ok_singleton_inj.
    pose proof (exp_pos (11 / 10 * ln (2 * 2))) as Hp.
    fold (Rpower (2 * 2) (11 / 10)) in Hp.
    apply Rinv_0_lt_compat in Hp. unfold Rdiv in H. nra.
Qed.




(** ** Rule *)

Lemma Rule_step_eq (self : Rule) (input_map : gmap Node R) (strength : R) c :
  Rule_step self input_map strength c =
  Ok (match input_map !! NChunk c, chunk2weight self !! c with
      | Some x, Some w => strength + x * w
      | _, _ => strength
      end)%R.
Proof.
  unfold Rule_step, getitem.
  by destruct (input_map !! NChunk c), (chunk2weight self !! c).
Qed.

Lemma Rule_loop (self : Rule) (input_map : gmap Node R) (l : list positive)
    (acc : R) :
  (∀ c, c ∈ l → is_Some (chunk2weight self !! c)) →
  for_each (Rule_step self input_map) acc l =
  Ok (acc + sum_over (fun c => default 0 (chunk2weight self !! c)
                               * default 0 (input_map !! NChunk c)) l)%R.
Proof.
  revert acc. induction l as [|c l IH]; intros acc Hl; cbn [for_each].
  - simpl. f_equal. lra.
  - rewrite Rule_step_eq, bind_Ok.
    rewrite IH by (intros c' Hc'; apply Hl; by right).
    rewrite sum_over_cons. destruct (Hl c) as [w Hw]; [left|]. rewrite Hw.
    destruct (input_map !! NChunk c); simpl; f_equal; lra.
Qed.

Lemma Rule_call_sum (self : Rule) (input_map : gmap Node R) :
  Rule_call self input_map =
  Ok {[NChunk (conclusion_chunk self) := rule_strength self input_map]}.
Proof.
  unfold Rule_call, rule_strength. rewrite Rule_loop.
  - rewrite bind_Ok, Rplus_0_l.
    by rewrite (sum_over_perm _ _ _ (keys_map_to_list_perm (chunk2weight self))).
  - intros c Hc. apply elem_of_dom.
    by rewrite <- elem_of_elements, <- keys_map_to_list_perm.
Qed.

Lemma half_rule_strength (input_map : gmap Node R) :
  rule_strength half_rule input_map =
  (1 / 2 * default 0 (input_map !! NChunk 1%positive)
   + 1 / 2 * default 0 (input_map !! NChunk 2%positive))%R.
Proof.
  unfold rule_strength. eval_elements.
  unfold sum_over, foldr, half_rule, chunk2weight.
  simplify_map_eq. simpl. lra.
Qed.

(** C4.  Calling a rule returns the single-entry map
    [{conclusion: Σ_c weight(c) * input[c]}] over its condition chunks, a
    condition chunk absent from the input contributing 0; with two condition
    chunks weighted 0.5 each, the inputs [{c1:0,c2:0}], [{c1:0,c2:1}],
    [{c1:.5,c2:1}] and [{c1:1,c2:1}] yield 0, 0.5, 0.75 and 1. *)
Theorem Rule_call_spec :
  (∀ (self : Rule) (input_map : gmap Node R),
     Rule_call self input_map =
     Ok {[NChunk (conclusion_chunk self) := rule_strength self input_map]})
  ∧ Rule_call half_rule {[NChunk 1%positive := 0%R; NChunk 2%positive := 0%R]}
    = Ok {[NChunk 3%positive := 0%R]}
  ∧ Rule_call half_rule {[NChunk 1%positive := 0%R; NChunk 2%positive := 1%R]}
    = Ok {[NChunk 3%positive := (1 / 2)%R]}
  ∧ Rule_call half_rule
      {[NChunk 1%positive := (1 / 2)%R; NChunk 2%positive := 1%R]}
    = Ok {[NChunk 3%positive := (3 / 4)%R]}
  ∧ Rule_call half_rule {[NChunk 1%positive := 1%R; NChunk 2%positive := 1%R]}
    = Ok {[NChunk 3%positive := 1%R]}.
Proof.
  split; [apply Rule_call_sum|].
  split_and!; rewrite Rule_call_sum, half_rule_strength; simplify_map_eq;
    simpl; do 2 f_equal; lra.
Qed.

(** ** MatchStatistics *)

Lemma Prim2SF_half : Prim2SF 0.5%float = sf_half.
Proof. reflexivity. Qed.

Lemma Prim2SF_quarter : Prim2SF 0.25%float = sf_quarter.
Proof. reflexivity. Qed.

Lemma digits2_pos_xO p :
  Zpos (digits2_pos (p~0)) = (Zpos (digits2_pos p) + 1)%Z.
Proof. simpl. lia. Qed.

Lemma mul_pow52 m :
  (4503599627370496 * m)%positive
  = (m~0~0~0~0~0~0~0~0~0~0~0~0~0~0~0~0~0~0~0~0~0~0~0~0~0~0
      ~0~0~0~0~0~0~0~0~0~0~0~0~0~0~0~0~0~0~0~0~0~0~0~0~0~0)%positive.
Proof. reflexivity. Qed.

Lemma digits2_pos_shift52 m :
  Zpos (digits2_pos (4503599627370496 * m)) = (52 + Zpos (digits2_pos m))%Z.
Proof. rewrite mul_pow52. do 52 rewrite digits2_pos_xO. lia. Qed.

Lemma digits2_pos_succ q :
  (Zpos (digits2_pos (Pos.succ q)) <= Zpos (digits2_pos q) + 1)%Z.
Proof. induction q as [q IH|q IH|]; simpl; lia. Qed.

Lemma bounded_digits m e :
  bounded prec emax m e = true →
  (Z.max (Zpos (digits2_pos m) + e - 53) (-1074) = e ∧ e <= 971)%Z.
Proof.
  unfold bounded, canonical_mantissa, fexp, emin, prec, emax.
  intros [H1 H2]%andb_prop. apply Z.eqb_eq in H1. apply Z.leb_le in H2.
  split; [exact H1 | exact H2].
Qed.

Lemma bounded_intro m e :
  (Z.max (Zpos (digits2_pos m) + e - 53) (-1074) = e)%Z → (e <= 971)%Z →
  bounded prec emax m e = true.
Proof.
  intros Hc He. unfold bounded, canonical_mantissa, fexp, emin, prec, emax.
  apply andb_true_intro. split; [by apply Z.eqb_eq | by apply Z.leb_le].
Qed.

(** Shifting out the 52 zero bits a factor [2^52] appends loses nothing. *)
Lemma shr_shift52 m e n :
  (n = 0 ∨ n = 1 ∨ n = 2)%Z →
  shr (Build_shr_record (Zpos (4503599627370496 * m)) false false) e (n + 52)
  = shr (Build_shr_record (Zpos m) false false) (e + 52)%Z n.
Proof.
  rewrite mul_pow52. intros [-> | [-> | ->]]; simpl; f_equal; lia.
Qed.

Lemma round64_pow52 s m e e' :
  bounded prec emax m e = true →
  (e' = e - 1 ∨ e' = e - 2)%Z →
  binary_round_aux prec emax s (Zpos (m * 4503599627370496)) (e' - 52) loc_Exact
  = round64 s m e'.
Proof.
  intros [Hc He]%bounded_digits He'. rewrite Pos.mul_comm.
  unfold round64, binary_round_aux.
  assert (Hshr : shr_fexp prec emax (Zpos (4503599627370496 * m)) (e' - 52)
                          loc_Exact
                 = shr_fexp prec emax (Zpos m) e' loc_Exact).
  { unfold shr_fexp, Zdigits2, shr_record_of_loc. rewrite digits2_pos_shift52.
    unfold fexp, emin, prec, emax.
    set (n := (Z.max (Zpos (digits2_pos m) + e' - 53) (-1074) - e')%Z).
    replace (Z.max (52 + Zpos (digits2_pos m) + (e' - 52) - 53) (3 - 1024 - 53)
             - (e' - 52))%Z
      with (n + 52)%Z by (unfold n; lia).
    replace (Z.max (Zpos (digits2_pos m) + e' - 53) (3 - 1024 - 53) - e')%Z
      with n by (unfold n; lia).
    rewrite shr_shift52 by (unfold n; lia). f_equal. lia. }
  by rewrite Hshr.
Qed.

Lemma SF64mul_half s m e :
  bounded prec emax m e = true →
  SF64mul (S754_finite s m e) sf_half = round64 s m (e - 1).
Proof.
  intros Hb. unfold SF64mul, SFmul, sf_half. rewrite xorb_false_r.
  replace (e + -53)%Z with (e - 1 - 52)%Z by lia.
  by apply (round64_pow52 s m e); [|left].
Qed.

Lemma SF64mul_quarter s m e :
  bounded prec emax m e = true →
  SF64mul (S754_finite s m e) sf_quarter = round64 s m (e - 2).
Proof.
  intros Hb. unfold SF64mul, SFmul, sf_quarter. rewrite xorb_false_r.
  replace (e + -54)%Z with (e - 2 - 52)%Z by lia.
  by apply (round64_pow52 s m e); [|right].
Qed.

Lemma round64_stages s m e :
  round64 s m e =
  let '(mrs, e') := shr_fexp prec emax (Zpos m) e loc_Exact in
  round64_finish s (round_nearest_even (shr_m mrs) (loc_of_shr_record mrs)) e'.
Proof. reflexivity. Qed.

Lemma round64_finish_fixed s r e :
  (Z.max (Zpos (digits2_pos r) + e - 53) (-1074) = e)%Z → (e <= 971)%Z →
  round64_finish s (Zpos r) e = S754_finite s r e.
Proof.
  intros Hc He.
  unfold round64_finish, shr_fexp, Zdigits2, shr_record_of_loc, fexp, emin,
    prec, emax.
  replace (Z.max (Zpos (digits2_pos r) + e - 53) (3 - 1024 - 53) - e)%Z
    with 0%Z by lia.
  simpl. destruct (e <=? 1024 - 53)%Z eqn:E; [done|]. apply Z.leb_gt in E. lia.
Qed.

Lemma round64_finish_small s r :
  (Zpos (digits2_pos r) <= 53)%Z →
  round64_finish s (Zpos r) (-1074) = S754_finite s r (-1074).
Proof. intros Hd. apply round64_finish_fixed; lia. Qed.

(** A mantissa that is already canonical at its exponent is kept. *)
Lemma round64_exact s m e :
  (Z.max (Zpos (digits2_pos m) + e - 53) (-1074) = e)%Z → (e <= 971)%Z →
  round64 s m e = S754_finite s m e.
Proof.
  intros Hc He. rewrite round64_stages.
  unfold shr_fexp, Zdigits2, shr_record_of_loc, fexp, emin, prec, emax.
  replace (Z.max (Zpos (digits2_pos m) + e - 53) (3 - 1024 - 53) - e)%Z
    with 0%Z by lia.
  simpl. by apply round64_finish_fixed.
Qed.

(** One bit below the smallest exponent: one shift, then rounding. *)
Lemma round64_shift1 s m :
  (Zpos (digits2_pos m) <= 53)%Z →
  round64 s m (-1075) =
  round64_finish s
    (round_nearest_even
       (shr_m (shr_1 (Build_shr_record (Zpos m) false false)))
       (loc_of_shr_record (shr_1 (Build_shr_record (Zpos m) false false))))
    (-1074).
Proof.
  intros Hd. rewrite round64_stages.
  unfold shr_fexp, Zdigits2, shr_record_of_loc, fexp, emin, prec, emax.
  replace (Z.max (Zpos (digits2_pos m) + -1075 - 53) (3 - 1024 - 53) - -1075)%Z
    with 1%Z by lia.
  reflexivity.
Qed.

(** Two bits below the smallest exponent: two shifts, then rounding. *)
Lemma round64_shift2 s m :
  (Zpos (digits2_pos m) <= 53)%Z →
  round64 s m (-1076) =
  round64_finish s
    (round_nearest_even
       (shr_m (shr_1 (shr_1 (Build_shr_record (Zpos m) false false))))
       (loc_of_shr_record
          (shr_1 (shr_1 (Build_shr_record (Zpos m) false false)))))
    (-1074).
Proof.
  intros Hd. rewrite round64_stages.
  unfold shr_fexp, Zdigits2, shr_record_of_loc, fexp, emin, prec, emax.
  replace (Z.max (Zpos (digits2_pos m) + -1076 - 53) (3 - 1024 - 53) - -1076)%Z
    with 2%Z by lia.
  reflexivity.
Qed.

Lemma SF64mul_half_subnormal s r :
  (Zpos (digits2_pos r) <= 53)%Z →
  SF64mul (S754_finite s r (-1074)) sf_half =
  round64_finish s
    (round_nearest_even
       (shr_m (shr_1 (Build_shr_record (Zpos r) false false)))
       (loc_of_shr_record (shr_1 (Build_shr_record (Zpos r) false false))))
    (-1074).
Proof.
  intros Hd. rewrite SF64mul_half by (apply bounded_intro; lia).
  by apply round64_shift1.
Qed.

(** At the smallest exponent, halving twice with a rounding after each step
    agrees with quartering once: by cases on the two low bits of the
    mantissa. *)
Lemma round64_half_twice_subnormal s m :
  (Zpos (digits2_pos m) <= 53)%Z →
  SF64mul (round64 s m (-1075)) sf_half = round64 s m (-1076).
Proof.
  intros Hd. rewrite round64_shift1, round64_shift2 by done.
  destruct m as [[q|q|]|[q|q|]|];
    cbn [shr_1 shr_m loc_of_shr_record round_nearest_even orb Z.even].
  all: simpl in Hd.
  all: try rewrite !Pos2Z.inj_succ in Hd.
  - pose proof (digits2_pos_succ q).
    change (Z.pos q~1 + 1)%Z with (Z.pos (Pos.succ q)~0).
    rewrite round64_finish_small by (simpl; lia).
    rewrite SF64mul_half_subnormal by (simpl; lia).
    cbn [shr_1 shr_m loc_of_shr_record round_nearest_even orb].
    change (Z.pos q + 1)%Z with (Z.pos (q + 1)). by rewrite Pos.add_1_r.
  - rewrite round64_finish_small by (simpl; lia).
    rewrite SF64mul_half_subnormal by (simpl; lia).
    by cbn [shr_1 shr_m loc_of_shr_record round_nearest_even orb].
  - by destruct s.
  - rewrite round64_finish_small by (simpl; lia).
    rewrite SF64mul_half_subnormal by (simpl; lia).
    by cbn [shr_1 shr_m loc_of_shr_record round_nearest_even orb Z.even].
  - rewrite round64_finish_small by (simpl; lia).
    rewrite SF64mul_half_subnormal by (simpl; lia).
    by cbn [shr_1 shr_m loc_of_shr_record round_nearest_even orb Z.even].
  - by destruct s.
  - by destruct s.
Qed.

Lemma SF64mul_half_twice (x : spec_float) :
  valid_binary x = true →
  SF64mul (SF64mul x sf_half) sf_half = SF64mul x sf_quarter.
Proof.
  destruct x as [s|s| |s m e]; [by destruct s | by destruct s | done |].
  intros Hb. simpl in Hb. pose proof (bounded_digits m e Hb) as [Hc He].
  rewrite (SF64mul_half s m e Hb), (SF64mul_quarter s m e Hb).
  destruct (Z_le_gt_dec (-1073) e) as [Hn|Hs].
  - rewrite round64_exact by lia.
    rewrite SF64mul_half by (apply bounded_intro; lia).
    f_equal. lia.
  - assert (e = -1074)%Z as -> by lia.
    apply round64_half_twice_subnormal. lia.
Qed.

(** On every binary64 float, the infinities, the zeros, NaN and the
    subnormal numbers included, halving twice is quartering once. *)
Lemma float_half_twice (x : float) : (x * 0.5 * 0.5 = x * 0.25)%float.
Proof.
  apply Prim2SF_inj. rewrite !mul_spec, Prim2SF_half, Prim2SF_quarter.
  apply SF64mul_half_twice, Prim2SF_valid.
Qed.

(** C9.  Applying [discount(0.5)] twice gives exactly the same counters as
    applying [discount(0.25)] once, over binary64 floats as over the reals;
    each call multiplies both counters by its multiplier, so that, over the
    reals, two calls compose to one call with the product of the
    multipliers. *)
Theorem discount_compose :
  (∀ self : MatchStatistics64,
     discount64 (discount64 self 0.5) 0.5 = discount64 self 0.25)
  ∧ (∀ (self : MatchStatistics64) m,
       positive_matches64 (discount64 self m)
       = (positive_matches64 self * m)%float
       ∧ negative_matches64 (discount64 self m)
         = (negative_matches64 self * m)%float)
  ∧ (∀ self : MatchStatistics,
       discount (discount self (1 / 2)) (1 / 2) = discount self (1 / 4))
  ∧ (∀ (self : MatchStatistics) m,
       positive_matches (discount self m) = (positive_matches self * m)%R
       ∧ negative_matches (discount self m) = (negative_matches self * m)%R)
  ∧ (∀ (self : MatchStatistics) m1 m2,
       discount (discount self m1) m2 = discount self (m1 * m2)).
Proof.
  split_and!.
  - intros self. unfold discount64. simpl. by rewrite !float_half_twice.
  - done.
  - intros self. unfold discount. simpl. f_equal; lra.
  - done.
  - intros self m1 m2. unfold discount. simpl. f_equal; lra.
Qed.

(** ** MaxJunction *)

Lemma MaxJunction_step_eq (node : Node) (activations m : gmap Node R) :
  MaxJunction_step node activations m =
  Ok (match m !! node with
      | None => activations
      | Some x =>
          match activations !! node with
          | Some cur =>
              if decide (cur < x)%R then <[node := x]> activations
              else activations
          | None => <[node := x]> activations
          end
      end).
Proof.
  unfold MaxJunction_step, getitem.
  destruct (activations !! node) as [cur|], (m !! node) as [x|]; simpl;
    try done.
  by destruct (decide (cur < x)%R).
Qed.

Lemma node_values_snoc (seen : list (gmap Node R)) m node :
  node_values (seen ++ [m]) node =
  node_values seen node ++ match m !! node with Some x => [x] | None => [] end.
Proof.
  unfold node_values. rewrite omap_app. by f_equal.
Qed.

Lemma max_inv_step (node : Node) seen (activations m : gmap Node R) :
  max_inv node seen activations →
  ∃ acts', MaxJunction_step node activations m = Ok acts'
           ∧ max_inv node (seen ++ [m]) acts'
           ∧ ∀ k, k ≠ node → acts' !! k = activations !! k.
Proof.
  unfold max_inv. intros Hinv. rewrite MaxJunction_step_eq. eexists.
  split; [done|]. rewrite node_values_snoc.
  destruct (m !! node) as [x|] eqn:Hx.
  - destruct (activations !! node) as [cur|] eqn:Hcur.
    + destruct Hinv as [Hin Hub].
      destruct (decide (cur < x)%R) as [Hlt|Hge].
      * rewrite lookup_insert_eq. split_and!; [set_solver | |].
        -- intros y [Hy| ->%list_elem_of_singleton]%elem_of_app; [|lra].
           apply Hub in Hy. lra.
        -- intros k Hk. by rewrite lookup_insert_ne.
      * rewrite Hcur. split_and!; [set_solver | | done].
        intros y [Hy| ->%list_elem_of_singleton]%elem_of_app; [|lra].
        by apply Hub.
    + rewrite lookup_insert_eq, Hinv. split_and!; [set_solver | |].
      * intros y ->%list_elem_of_singleton. lra.
      * intros k Hk. by rewrite lookup_insert_ne.
  - rewrite app_nil_r. split; [done|]. done.
Qed.

Lemma max_inv_loop (node : Node) (l seen : list (gmap Node R))
    (activations : gmap Node R) :
  max_inv node seen activations →
  ∃ acts', for_each (MaxJunction_step node) activations l = Ok acts'
           ∧ max_inv node (seen ++ l) acts'
           ∧ ∀ k, k ≠ node → acts' !! k = activations !! k.
Proof.
  revert seen activations. induction l as [|m l IH]; intros seen acts Hinv.
  - exists acts. by rewrite app_nil_r.
  - destruct (max_inv_step node seen acts m Hinv) as (acts1 & Hstep & Hinv1 & Hk1).
    destruct (IH _ _ Hinv1) as (acts' & Hloop & Hinv' & Hk').
    exists acts'. cbn [for_each]. rewrite Hstep, bind_Ok.
    rewrite <- app_assoc in Hinv'. split_and!; [done | done |].
    intros k Hk. by rewrite Hk', Hk1.
Qed.

Lemma max_inv_lookup (node : Node) seen (acts acts' : gmap Node R) :
  acts' !! node = acts !! node → max_inv node seen acts → max_inv node seen acts'.
Proof. unfold max_inv. by intros ->. Qed.

Lemma junction_inv_loop (input_maps : list (gmap Node R)) (l done : list Node)
    (activations : gmap Node R) :
  NoDup l →
  (∀ k, k ∈ l → k ∉ done) →
  junction_inv input_maps done activations →
  ∃ acts',
    for_each (fun activations node =>
                for_each (MaxJunction_step node) activations input_maps)
             activations l = Ok acts'
    ∧ junction_inv input_maps (done ++ l) acts'.
Proof.
  revert done activations.
  induction l as [|node l IH]; intros done acts Hnd Hfresh Hinv.
  - exists acts. by rewrite app_nil_r.
  - apply NoDup_cons in Hnd as [Hnode Hnd].
    assert (Hnone : acts !! node = None).
    { specialize (Hinv node). rewrite decide_False in Hinv; [done|].
      apply Hfresh. left. }
    destruct (max_inv_loop node input_maps [] acts) as (acts1 & Hloop & Hmax & Hk).
    { unfold max_inv. by rewrite Hnone. }
    rewrite app_nil_l in Hmax.
    destruct (IH (done ++ [node]) acts1 Hnd) as (acts' & Hloop' & Hinv').
    + intros k Hk' [Hd| ->%list_elem_of_singleton]%elem_of_app; [|done].
      revert Hd. apply Hfresh. by right.
    + intros k. destruct (decide (k = node)) as [->|Hne].
      * rewrite decide_True by set_solver. done.
      * specialize (Hinv k). destruct (decide (k ∈ done)) as [Hd|Hd].
        -- rewrite decide_True by set_solver.
           eapply max_inv_lookup; [by apply Hk | done].
        -- rewrite decide_False by set_solver. by rewrite Hk.
    + exists acts'. cbn [for_each]. rewrite Hloop, bind_Ok.
      split; [done|]. by rewrite <- app_assoc in Hinv'.
Qed.

Lemma node_values_nonempty (input_maps : list (gmap Node R)) (k : Node) :
  k ∈ get_nodes input_maps ↔ node_values input_maps k ≠ [].
Proof.
  unfold get_nodes, node_values. rewrite elem_of_union_list. split.
  - intros (X & Hin & Hk). apply list_elem_of_fmap in Hin as (m & -> & Hm).
    apply elem_of_dom in Hk as [x Hx]. intros Hnil.
    assert (Hx' : x ∈ omap (fun m => m !! k) input_maps).
    { apply list_elem_of_omap. by exists m. }
    rewrite Hnil in Hx'. by apply not_elem_of_nil in Hx'.
  - intros Hne. destruct (omap _ input_maps) as [|x xs] eqn:E; [done|].
    assert (Hin : x ∈ x :: xs) by left. rewrite <- E in Hin.
    apply list_elem_of_omap in Hin as (m & Hm & Hx).
    exists (dom m). split; [by apply list_elem_of_fmap_2|].
    apply elem_of_dom. by eexists.
Qed.

(** C3.  MaxJunction returns a map whose key set is the union of the key
    sets of the input maps, and whose value at a key is the maximum of that
    key's values over exactly the input maps that hold the key. *)
Theorem MaxJunction_call_spec (input_maps : list (gmap Node R)) :
  ∃ r, MaxJunction_call input_maps = Ok r
       ∧ dom r = ⋃ (dom <$> input_maps)
       ∧ ∀ k v, r !! k = Some v ↔
                (∃ m, m ∈ input_maps ∧ m !! k = Some v)
                ∧ (∀ m x, m ∈ input_maps → m !! k = Some x → (x <= v)%R).
Proof.
  destruct (junction_inv_loop input_maps (elements (get_nodes input_maps)) [] ∅)
    as (r & Hr & Hinv).
  { apply NoDup_elements. }
  { intros k _. apply not_elem_of_nil. }
  { intros k. by rewrite decide_False by apply not_elem_of_nil. }
  rewrite app_nil_l in Hinv.
  assert (Hchar : ∀ k, match r !! k with
                       | None => node_values input_maps k = []
                       | Some v => v ∈ node_values input_maps k
                                   ∧ ∀ x, x ∈ node_values input_maps k → (x <= v)%R
                       end).
  { intros k. specialize (Hinv k).
    destruct (decide (k ∈ elements (get_nodes input_maps))) as [Hk|Hk]; [done|].
    rewrite Hinv. rewrite elem_of_elements, node_values_nonempty in Hk.
    destruct (node_values input_maps k); [done|]. by destruct Hk. }
  exists r. split; [done|]. split.
  - apply set_eq. intros k. fold (get_nodes input_maps).
    rewrite elem_of_dom, node_values_nonempty. specialize (Hchar k).
    destruct (r !! k) as [v|].
    + destruct Hchar as [Hin _]. split; [|by eauto].
      intros _ Hnil. rewrite Hnil in Hin. by apply not_elem_of_nil in Hin.
    + split; [by intros [? ?] | done].
  - intros k v. pose proof (Hchar k) as Hk. unfold node_values in Hk. split.
    + intros Hv. rewrite Hv in Hk. destruct Hk as [Hin Hub]. split.
      * apply list_elem_of_omap in Hin as (m & Hm & Hmv). by exists m.
      * intros m x Hm Hx. apply Hub. apply list_elem_of_omap. by exists m.
    + intros [(m & Hm & Hmv) Hub].
      assert (Hin : v ∈ omap (fun m => m !! k) input_maps).
      { apply list_elem_of_omap. by exists m. }
      destruct (r !! k) as [v'|].
      * destruct Hk as [Hin' Hub']. f_equal. apply Rle_antisym.
        -- apply list_elem_of_omap in Hin' as (m' & Hm' & Hmv').
           by apply (Hub m').
        -- by apply Hub'.
      * rewrite Hk in Hin. by apply not_elem_of_nil in Hin.
Qed.

(** ** BLA *)

Lemma comprehension_Ok {A B : Type} (f : A → result B) (g : A → B)
    (l : list A) :
  (∀ x, x ∈ l → f x = Ok (g x)) → comprehension f l = Ok (g <$> l).
Proof.
  induction l as [|x l IH]; intros Hf; cbn [comprehension]; [done|].
  rewrite Hf by left. rewrite bind_Ok, IH; [done|].
  intros y Hy. apply Hf. by right.
Qed.

Lemma comprehension_Raise {A B : Type} (f : A → result B) (e : exn)
    (l : list A) :
  (∀ x, x ∈ l → (∃ y, f x = Ok y) ∨ f x = Raise e) →
  (∃ x, x ∈ l ∧ f x = Raise e) →
  comprehension f l = Raise e.
Proof.
  induction l as [|x l IH]; intros Hf (x0 & Hx0 & Hraise).
  - by apply not_elem_of_nil in Hx0.
  - cbn [comprehension]. destruct (Hf x) as [[y Hy]|Hx]; [left | |].
    + rewrite Hy, bind_Ok, IH; [done | |].
      * intros z Hz. apply Hf. by right.
      * exists x0. split; [|done].
        apply elem_of_cons in Hx0 as [->|]; [congruence | done].
    + by rewrite Hx.
Qed.

Lemma sum_over_const {A : Type} (c : R) (l : list A) :
  sum_over (fun _ => c) l = (INR (length l) * c)%R.
Proof.
  induction l as [|x l IH]; [simpl; lra|].
  rewrite sum_over_cons, IH. cbn [length]. rewrite S_INR. lra.
Qed.


Lemma compute_bla_no_overflow (pow_neg : R → R → R) (self : BLA) (t_now : R) :
  (∀ t, t ∈ timestamps self →
        (t < t_now)%R
        ∧ (Rpower (t_now - t) (- decay_rate self) < float_huge)%R) →
  compute_bla pow_neg self t_now = Ok (bla_value self t_now).
Proof.
  intros Hts. unfold compute_bla, bla_value.
  rewrite (comprehension_Ok _
             (fun t => flush_tiny (Rpower (t_now - t) (- decay_rate self)))).
  - rewrite bind_Ok, py_sum_sum_over, sum_over_fmap. done.
  - intros t Ht. destruct (Hts t Ht) as [Hlt Hrange].
    rewrite py_pow_pos by lra. by apply float_round_no_overflow.
Qed.

Lemma compute_bla_zero_division (pow_neg : R → R → R) (self : BLA) (t_now : R) :
  t_now ∈ timestamps self →
  (0 < decay_rate self)%R →
  (∀ t, t ∈ timestamps self → (t <= t_now)%R) →
  (∀ t, t ∈ timestamps self → (t < t_now)%R →
        (Rpower (t_now - t) (- decay_rate self) < float_huge)%R) →
  compute_bla pow_neg self t_now = Raise ZeroDivisionError.
Proof.
  intros Hin Hd Hle Hrange. unfold compute_bla.
  rewrite (comprehension_Raise _ ZeroDivisionError); [done | |].
  - intros t Ht. destruct (decide (t = t_now)) as [->|Hne].
    + right. replace (t_now - t_now)%R with 0%R by lra.
      apply py_pow_zero_neg. lra.
    + left. eexists. specialize (Hle t Ht).
      rewrite py_pow_pos by lra. apply float_round_no_overflow.
      apply Hrange; [done | lra].
  - exists t_now. split; [done|].
    replace (t_now - t_now)%R with 0%R by lra. apply py_pow_zero_neg. lra.
Qed.




Lemma Rpower_base_1 (y : R) : Rpower 1 y = 1%R.
Proof. unfold Rpower. by rewrite ln_1, Rmult_0_r, exp_0. Qed.




(** ** BoltzmannSelector *)

Lemma sum_over_pos {A : Type} (f : A → R) (l : list A) :
  l ≠ [] → (∀ x, x ∈ l → (0 < f x)%R) → (0 < sum_over f l)%R.
Proof.
  destruct l as [|x l]; [done|]. intros _ Hf. rewrite sum_over_cons.
  assert (0 < f x)%R by (apply Hf; left).
  assert (0 <= sum_over f l)%R.
  { apply sum_over_nonneg. intros y Hy. apply Rlt_le, Hf. by right. }
  lra.
Qed.

Lemma sum_over_div {A : Type} (f : A → R) (d : R) (l : list A) :
  sum_over (fun x => f x / d)%R l = (sum_over f l / d)%R.
Proof.
  induction l as [|x l IH]; [simpl; unfold Rdiv; lra|].
  rewrite !sum_over_cons, IH. unfold Rdiv. lra.
Qed.

Lemma boltzmann_term_pos (self : BoltzmannSelector)
    (chunk2strength : gmap positive R) c :
  (0 < boltzmann_term self chunk2strength c)%R.
Proof.
  unfold boltzmann_term. destruct (chunk2strength !! c); [apply exp_pos | lra].
Qed.

Lemma boltzmann_divisor_pos (self : BoltzmannSelector)
    (chunk2strength : gmap positive R) :
  chunks self ≠ [] → (0 < boltzmann_divisor self chunk2strength)%R.
Proof.
  intros Hne. apply sum_over_pos; [done|]. intros c _. apply boltzmann_term_pos.
Qed.

Lemma boltzmann_probability_pos (self : BoltzmannSelector)
    (chunk2strength : gmap positive R) c :
  chunks self ≠ [] → (0 < boltzmann_probability self chunk2strength c)%R.
Proof.
  intros Hne. unfold boltzmann_probability.
  apply Rdiv_lt_0_compat; [apply boltzmann_term_pos | by apply boltzmann_divisor_pos].
Qed.

Lemma boltzmann_probability_total (self : BoltzmannSelector)
    (chunk2strength : gmap positive R) :
  chunks self ≠ [] →
  sum_over (boltzmann_probability self chunk2strength) (chunks self) = 1%R.
Proof.
  intros Hne. unfold boltzmann_probability. rewrite sum_over_div.
  fold (boltzmann_divisor self chunk2strength).
  pose proof (boltzmann_divisor_pos self chunk2strength Hne).
  apply Rdiv_diag. lra.
Qed.

Lemma np_exp_in_range (x : R) :
  in_float_range (exp x) → np_exp x = Finite (exp x).
Proof.
  intros Hr. unfold np_exp. rewrite decide_False by (destruct Hr; lra).
  by rewrite flush_tiny_in_range.
Qed.

Lemma np_exp_zero : np_exp 0 = Finite 1.
Proof.
  rewrite np_exp_in_range; [by rewrite exp_0|].
  rewrite exp_0. apply in_float_range_mid. lra.
Qed.

Lemma np_exp_overflow (x : R) : (float_huge <= exp x)%R → np_exp x = PosInf.
Proof. intros Hx. unfold np_exp. by rewrite decide_True. Qed.

Lemma Boltzmann_step_eq (self : BoltzmannSelector)
    (chunk2strength : gmap positive R) (terms : gmap positive np_float)
    (divisor : np_float) c :
  temperature self ≠ 0%R →
  Boltzmann_step self chunk2strength (terms, divisor) c =
  Ok (<[c := np_term self chunk2strength c]> terms,
      np_add divisor (np_term self chunk2strength c)).
Proof.
  intros HT. unfold Boltzmann_step, np_term.
  destruct (chunk2strength !! c) as [s|] eqn:Hs.
  - rewrite (getitem_Some _ _ _ Hs), bind_Ok, py_div_nonzero by done.
    rewrite bind_Ok. cbn [try_except_KeyError]. rewrite bind_Ok.
    by rewrite (getitem_Some _ _ _ (lookup_insert_eq _ _ _)).
  - rewrite (getitem_None _ _ Hs), bind_Raise. cbn [try_except_KeyError].
    rewrite bind_Ok.
    by rewrite (getitem_Some _ _ _ (lookup_insert_eq _ _ _)).
Qed.

Lemma Boltzmann_loop (self : BoltzmannSelector)
    (chunk2strength : gmap positive R) (l : list positive)
    (terms : gmap positive np_float) (divisor : np_float) :
  temperature self ≠ 0%R →
  ∃ terms',
    for_each (Boltzmann_step self chunk2strength) (terms, divisor) l =
    Ok (terms', foldl np_add divisor (np_term self chunk2strength <$> l))
    ∧ (∀ c, c ∈ l → terms' !! c = Some (np_term self chunk2strength c))
    ∧ (∀ c, c ∉ l → terms' !! c = terms !! c).
Proof.
  intros HT. revert terms divisor.
  induction l as [|x l IH]; intros terms divisor.
  - exists terms. simpl. split_and!; [done | | done].
    intros c Hc. by apply not_elem_of_nil in Hc.
  - destruct (IH (<[x := np_term self chunk2strength x]> terms)
                 (np_add divisor (np_term self chunk2strength x)))
      as (terms' & Hloop & Hin & Hout).
    exists terms'. cbn [for_each]. rewrite Boltzmann_step_eq, bind_Ok by done.
    rewrite Hloop. split_and!.
    + done.
    + intros c Hc. destruct (decide (c ∈ l)) as [Hl|Hl]; [by apply Hin|].
      assert (c = x) as -> by set_solver.
      by rewrite Hout, lookup_insert_eq.
    + intros c Hc. rewrite Hout by set_solver.
      apply lookup_insert_ne. set_solver.
Qed.

(** What the selector hands to the draw, at a temperature that is not
    zero. *)
Lemma Boltzmann_probabilities_np (self : BoltzmannSelector)
    (chunk2strength : gmap positive R) :
  temperature self ≠ 0%R →
  Boltzmann_probabilities self chunk2strength =
  Ok ((fun c => np_div (np_term self chunk2strength c)
                       (np_divisor self chunk2strength (chunks self)))
      <$> chunks self).
Proof.
  intros HT. unfold Boltzmann_probabilities.
  destruct (Boltzmann_loop self chunk2strength (chunks self) ∅ (Finite 0) HT)
    as (terms & Hloop & Hin & _).
  rewrite Hloop, bind_Ok. cbn [fst snd]. apply comprehension_Ok.
  intros c Hc. by rewrite (getitem_Some _ _ _ (Hin c Hc)), bind_Ok.
Qed.

Lemma sum_over_elem_le {A : Type} (f : A → R) (l : list A) x :
  (∀ y, y ∈ l → (0 <= f y)%R) → x ∈ l → (f x <= sum_over f l)%R.
Proof.
  intros Hf Hx. induction l as [|y l IH]; [by apply not_elem_of_nil in Hx|].
  rewrite sum_over_cons.
  assert (0 <= f y)%R by (apply Hf; left).
  assert (0 <= sum_over f l)%R.
  { apply sum_over_nonneg. intros z Hz. apply Hf. by right. }
  apply elem_of_cons in Hx as [->|Hx]; [lra|].
  assert (f x <= sum_over f l)%R; [|lra].
  apply IH; [|done]. intros z Hz. apply Hf. by right.
Qed.

(** A term that neither underflows nor, like the sum of all terms,
    overflows, is stored as the real exponential. *)
Lemma np_term_in_range (self : BoltzmannSelector)
    (chunk2strength : gmap positive R) c :
  (∀ c', c' ∈ chunks self →
         (float_tiny < boltzmann_term self chunk2strength c')%R) →
  (boltzmann_divisor self chunk2strength < float_huge)%R →
  c ∈ chunks self →
  np_term self chunk2strength c = Finite (boltzmann_term self chunk2strength c).
Proof.
  intros Hlo Hhi Hc.
  assert (Hle : (boltzmann_term self chunk2strength c
                 <= boltzmann_divisor self chunk2strength)%R).
  { apply sum_over_elem_le; [|done].
    intros y _. apply Rlt_le, boltzmann_term_pos. }
  specialize (Hlo c Hc). unfold np_term, boltzmann_term in *.
  destruct (chunk2strength !! c) as [s|]; [|done].
  apply np_exp_in_range. split; lra.
Qed.

Lemma np_add_Finite (f : positive → R) (l : list positive) (d : R) :
  foldl np_add (Finite d) ((fun c => Finite (f c)) <$> l)
  = Finite (d + sum_over f l).
Proof.
  revert d. induction l as [|x l IH]; intros d; csimpl.
  - f_equal. lra.
  - rewrite IH. f_equal. lra.
Qed.

Lemma np_divisor_in_range (self : BoltzmannSelector)
    (chunk2strength : gmap positive R) :
  (∀ c, c ∈ chunks self →
        (float_tiny < boltzmann_term self chunk2strength c)%R) →
  (boltzmann_divisor self chunk2strength < float_huge)%R →
  np_divisor self chunk2strength (chunks self)
  = Finite (boltzmann_divisor self chunk2strength).
Proof.
  intros Hlo Hhi. unfold np_divisor.
  rewrite (list_fmap_ext (np_term self chunk2strength)
             (fun c => Finite (boltzmann_term self chunk2strength c))).
  - rewrite np_add_Finite. unfold boltzmann_divisor. f_equal. lra.
  - intros i c Hi. apply np_term_in_range; [done | done |].
    by eapply list_elem_of_lookup_2.
Qed.

Lemma Boltzmann_probabilities_eq (self : BoltzmannSelector)
    (chunk2strength : gmap positive R) :
  chunks self ≠ [] →
  temperature self ≠ 0%R →
  (∀ c, c ∈ chunks self →
        (float_tiny < boltzmann_term self chunk2strength c)%R) →
  (boltzmann_divisor self chunk2strength < float_huge)%R →
  Boltzmann_probabilities self chunk2strength =
  Ok ((fun c => Finite (boltzmann_probability self chunk2strength c))
      <$> chunks self).
Proof.
  intros Hne HT Hlo Hhi. rewrite Boltzmann_probabilities_np by done.
  rewrite np_divisor_in_range by done. f_equal.
  apply list_fmap_ext. intros i c Hi.
  rewrite np_term_in_range by (done || by eapply list_elem_of_lookup_2).
  pose proof (boltzmann_divisor_pos self chunk2strength Hne).
  unfold np_div. rewrite decide_False by lra. done.
Qed.

Lemma inverse_cdf_elem {A : Type} (a : list A) (p : list R) (u : R) x :
  inverse_cdf a p u = Some x → x ∈ a.
Proof.
  revert p u. induction a as [|y a IH]; intros [|q p] u; simpl; try done.
  destruct (decide (u < q)%R).
  - intros [= ->]. left.
  - intros Hx. right. by eapply IH.
Qed.

Lemma inverse_cdf_Some {A : Type} (a : list A) (p : list R) (u : R) :
  length a = length p →
  (0 <= u < sum_over id p)%R →
  ∃ x, inverse_cdf a p u = Some x.
Proof.
  revert p u. induction a as [|y a IH]; intros [|q p] u Hlen Hu; simpl in *;
    try done.
  - lra.
  - destruct (decide (u < q)%R); [by eexists|].
    apply IH; [lia|]. unfold id at 1 in Hu. fold (sum_over id p) in Hu. lra.
Qed.

Lemma inverse_cdf_interval {A : Type} (f : A → R) (a : list A) (u : R) i x :
  NoDup a →
  (∀ y, y ∈ a → (0 <= f y)%R) →
  (0 <= u)%R →
  a !! i = Some x →
  inverse_cdf a (f <$> a) u = Some x ↔
  (sum_over f (take i a) <= u < sum_over f (take i a) + f x)%R.
Proof.
  revert u i. induction a as [|y a IH]; intros u i Hnd Hf Hu Hi; [done|].
  apply NoDup_cons in Hnd as [Hy Hnd]. csimpl.
  assert (Hfy : (0 <= f y)%R) by (apply Hf; left).
  destruct i as [|i]; simpl in Hi.
  - injection Hi as ->. simpl.
    destruct (decide (u < f x)%R) as [Hlt|Hge].
    + split; [intros _; lra | done].
    + split; [|intros; lra].
      intros Hx%inverse_cdf_elem. done.
  - assert (Hxa : x ∈ a) by by eapply list_elem_of_lookup_2.
    assert (Hpre : (0 <= sum_over f (take i a))%R).
    { apply sum_over_nonneg. intros z Hz. apply Hf. right.
      by apply (subseteq_take i a). }
    cbn [take]. rewrite sum_over_cons.
    destruct (decide (u < f y)%R) as [Hlt|Hge].
    + split; [|intros; lra].
      intros [= ->]. done.
    + rewrite IH; [| done | by intros z Hz; apply Hf; right | lra | done].
      split; intros; lra.
Qed.

Lemma finite_values_Finite {A : Type} (f : A → R) (l : list A) :
  finite_values ((fun x => Finite (f x)) <$> l) = Some (f <$> l).
Proof. induction l as [|x l IH]; csimpl; [done|]. by rewrite IH. Qed.

Lemma np_random_choice_probabilities (self : BoltzmannSelector)
    (chunk2strength : gmap positive R) (u : R) :
  chunks self ≠ [] →
  (0 <= u < 1)%R →
  ∃ c, inverse_cdf (chunks self)
         (boltzmann_probability self chunk2strength <$> chunks self) u = Some c
       ∧ np_random_choice (chunks self)
           ((fun c => Finite (boltzmann_probability self chunk2strength c))
            <$> chunks self) u = Ok c.
Proof.
  intros Hne Hu.
  assert (Hsum : sum_over id (boltzmann_probability self chunk2strength
                              <$> chunks self) = 1%R).
  { rewrite sum_over_fmap. by apply boltzmann_probability_total. }
  destruct (inverse_cdf_Some (chunks self)
              (boltzmann_probability self chunk2strength <$> chunks self) u)
    as [c Hc].
  { by rewrite length_fmap. }
  { rewrite Hsum. done. }
  exists c. split; [done|]. unfold np_random_choice.
  rewrite decide_False by done.
  rewrite decide_True by by rewrite length_fmap.
  rewrite finite_values_Finite.
  rewrite decide_True.
  2:{ apply Forall_fmap, Forall_forall. intros x _. simpl.
      apply Rlt_le. by apply boltzmann_probability_pos. }
  rewrite decide_True by by rewrite py_sum_sum_over.
  by rewrite Hc.
Qed.

Lemma Boltzmann_call_eq (self : BoltzmannSelector)
    (chunk2strength : gmap positive R) (u : R) :
  chunks self ≠ [] →
  temperature self ≠ 0%R →
  (∀ c, c ∈ chunks self →
        (float_tiny < boltzmann_term self chunk2strength c)%R) →
  (boltzmann_divisor self chunk2strength < float_huge)%R →
  (0 <= u < 1)%R →
  ∃ c, inverse_cdf (chunks self)
         (boltzmann_probability self chunk2strength <$> chunks self) u = Some c
       ∧ Boltzmann_call self chunk2strength u = Ok {[c]}.
Proof.
  intros Hne HT Hlo Hhi Hu.
  destruct (np_random_choice_probabilities self chunk2strength u Hne Hu)
    as (c & Hc & Hchoice).
  exists c. split; [done|]. unfold Boltzmann_call.
  by rewrite Boltzmann_probabilities_eq, bind_Ok, Hchoice.
Qed.

Lemma sum_over_app {A : Type} (f : A → R) (l1 l2 : list A) :
  sum_over f (l1 ++ l2) = (sum_over f l1 + sum_over f l2)%R.
Proof.
  induction l1 as [|x l1 IH]; [simpl; lra|].
  rewrite <- app_comm_cons, !sum_over_cons, IH. lra.
Qed.

Lemma boltzmann_mass_before_bounds (self : BoltzmannSelector)
    (chunk2strength : gmap positive R) i c :
  chunks self ≠ [] →
  chunks self !! i = Some c →
  (0 <= boltzmann_mass_before self chunk2strength i)%R
  ∧ (boltzmann_mass_before self chunk2strength i
     + boltzmann_probability self chunk2strength c <= 1)%R.
Proof.
  intros Hne Hi. unfold boltzmann_mass_before.
  assert (Hnn : ∀ l : list positive,
            (0 <= sum_over (boltzmann_probability self chunk2strength) l)%R).
  { intros l. apply sum_over_nonneg. intros x _.
    apply Rlt_le. by apply boltzmann_probability_pos. }
  split; [apply Hnn|].
  pose proof (f_equal (sum_over (boltzmann_probability self chunk2strength))
                (take_drop_middle _ _ _ Hi)) as Hs.
  rewrite sum_over_app, sum_over_cons in Hs.
  rewrite (boltzmann_probability_total self chunk2strength Hne) in Hs.
  pose proof (Hnn (drop (S i) (chunks self))). lra.
Qed.

(** C6 (as amended).  For a non-empty candidate set, a temperature [T > 0]
    and an input for which no term [exp(strength(c)/T)] is too small for a
    float and the sum of all terms is not too large for one,
    BoltzmannSelector gives each candidate [c] the term [exp(strength(c)/T)]
    if [c] is a key of the input and [1] otherwise, and the probability
    term over the sum of all terms; the probabilities sum to 1; every draw
    returns a singleton set holding a candidate; and a candidate is returned
    exactly when the uniform sample of [[0, 1)] falls in an interval whose
    length is the candidate's probability. *)
Theorem Boltzmann_call_spec (self : BoltzmannSelector)
    (chunk2strength : gmap positive R) :
  chunks self ≠ [] →
  NoDup (chunks self) →
  (0 < temperature self)%R →
  (∀ c, c ∈ chunks self →
        (float_tiny < boltzmann_term self chunk2strength c)%R) →
  (boltzmann_divisor self chunk2strength < float_huge)%R →
  Boltzmann_probabilities self chunk2strength =
    Ok ((fun c => Finite (boltzmann_probability self chunk2strength c))
        <$> chunks self)
  ∧ (∀ c, boltzmann_probability self chunk2strength c =
          (match chunk2strength !! c with
           | Some s => exp (s / temperature self)
           | None => 1
           end
           / sum_over (fun c' => match chunk2strength !! c' with
                                 | Some s => exp (s / temperature self)
                                 | None => 1
                                 end) (chunks self))%R)
  ∧ sum_over (boltzmann_probability self chunk2strength) (chunks self) = 1%R
  ∧ (∀ u, (0 <= u < 1)%R →
       ∃ c, c ∈ chunks self
            ∧ Boltzmann_call self chunk2strength u = Ok {[c]})
  ∧ (∀ i c, chunks self !! i = Some c →
       ((0 <= boltzmann_mass_before self chunk2strength i)%R
        ∧ (boltzmann_mass_before self chunk2strength i
           + boltzmann_probability self chunk2strength c <= 1)%R)
       ∧ ∀ u, (0 <= u < 1)%R →
           Boltzmann_call self chunk2strength u = Ok {[c]} ↔
           (boltzmann_mass_before self chunk2strength i <= u
            < boltzmann_mass_before self chunk2strength i
              + boltzmann_probability self chunk2strength c)%R).
Proof.
  intros Hne Hnd HT Hlo Hhi.
  assert (HT0 : temperature self ≠ 0%R) by lra.
  split_and!.
  - by apply Boltzmann_probabilities_eq.
  - done.
  - by apply boltzmann_probability_total.
  - intros u Hu.
    destruct (Boltzmann_call_eq self chunk2strength u Hne HT0 Hlo Hhi Hu)
      as (c & Hc & Hcall).
    exists c. split; [by eapply inverse_cdf_elem | done].
  - intros i c Hi. split; [by apply boltzmann_mass_before_bounds|].
    intros u Hu.
    destruct (Boltzmann_call_eq self chunk2strength u Hne HT0 Hlo Hhi Hu)
      as (c0 & Hc0 & Hcall).
    assert (Hiv := inverse_cdf_interval
                     (boltzmann_probability self chunk2strength)
                     (chunks self) u i c Hnd).
    unfold boltzmann_mass_before. rewrite <- Hiv; [| | lra | done].
    + rewrite Hcall, Hc0. split.
      * intros Heq. assert ({[c0]} = ({[c]} : gset positive)) by congruence.
        f_equal. set_solver.
      * by intros [= ->].
    + intros y _. apply Rlt_le. by apply boltzmann_probability_pos.
Qed.

Lemma two_chunk_terms_in_range :
  (∀ c, c ∈ chunks two_chunk_selector →
        (float_tiny
         < boltzmann_term two_chunk_selector {[1%positive := 1%R]} c)%R)
  ∧ (boltzmann_divisor two_chunk_selector {[1%positive := 1%R]}
     < float_huge)%R.
Proof.
  pose proof float_tiny_lt_1. pose proof exp_le_3.
  pose proof (exp_ineq1 1). split.
  - intros c Hc. unfold boltzmann_term, two_chunk_selector in *. simpl in *.
    set_unfold. destruct Hc as [->|[->|[]]]; simplify_map_eq.
    + replace (1 / 1)%R with 1%R by lra. lra.
    + lra.
  - apply float_huge_gt. unfold boltzmann_divisor, boltzmann_term.
    simpl. simplify_map_eq. replace (1 / 1)%R with 1%R by lra. lra.
Qed.

Lemma Boltzmann_call_spec_witness :
  ∃ c, c ∈ chunks two_chunk_selector
       ∧ Boltzmann_call two_chunk_selector {[1%positive := 1%R]} (1 / 2)
         = Ok {[c]}.
Proof.
  assert (Hne : chunks two_chunk_selector ≠ []) by done.
  assert (Hnd : NoDup (chunks two_chunk_selector)).
  { apply NoDup_cons. split; [set_solver | apply NoDup_singleton]. }
  assert (HT : (0 < temperature two_chunk_selector)%R) by (simpl; lra).
  apply (proj1 (proj2 (proj2 (proj2
           (Boltzmann_call_spec two_chunk_selector {[1%positive := 1%R]}
              Hne Hnd HT (proj1 two_chunk_terms_in_range)
              (proj2 two_chunk_terms_in_range)))))).
  lra.
Defined.

(** C6 fails as stated: at temperature 1 with both candidates at strength
    2000, [numpy.exp(2000.0)] is infinite for each, so is their sum, and
    every probability handed to the draw is [inf / inf], a NaN, where the
    claim has one half; no candidate is drawn. *)
Lemma Boltzmann_call_spec_counterexample :
  chunks two_chunk_selector ≠ []
  ∧ (0 < temperature two_chunk_selector)%R
  ∧ boltzmann_probability two_chunk_selector
      {[1%positive := 2000%R; 2%positive := 2000%R]} 1%positive = (1 / 2)%R
  ∧ Boltzmann_probabilities two_chunk_selector
      {[1%positive := 2000%R; 2%positive := 2000%R]} = Ok [NaN; NaN]
  ∧ ∀ u, Boltzmann_call two_chunk_selector
           {[1%positive := 2000%R; 2%positive := 2000%R]} u
         = Raise ValueError.
Proof.
  assert (Hterm : ∀ c, c ∈ chunks two_chunk_selector →
            np_term two_chunk_selector
              {[1%positive := 2000%R; 2%positive := 2000%R]} c = PosInf).
  { intros c Hc. unfold np_term, two_chunk_selector in *. simpl in *.
    set_unfold. destruct Hc as [->|[->|[]]]; simplify_map_eq;
      replace (2000 / 1)%R with 2000%R by lra;
      apply np_exp_overflow, exp_2000_overflow. }
  assert (Hprobs : Boltzmann_probabilities two_chunk_selector
            {[1%positive := 2000%R; 2%positive := 2000%R]} = Ok [NaN; NaN]).
  { rewrite Boltzmann_probabilities_np by (simpl; lra).
    unfold np_divisor. cbn [chunks two_chunk_selector]. csimpl.
    rewrite !Hterm by (simpl; set_solver). done. }
  split_and!.
  - done.
  - simpl. lra.
  - unfold boltzmann_probability, boltzmann_divisor, boltzmann_term.
    simpl. simplify_map_eq.
    pose proof (exp_pos (2000 / 1)). field. lra.
  - done.
  - intros u. unfold Boltzmann_call. by rewrite Hprobs.
Qed.

(** * Further properties *)

(** ** TopDown.count_values *)

(** X1.  [count_values] maps a dimension to [n] exactly when [n] is the
    number of the given microfeatures of that dimension and is not zero: its
    keys are the dimensions that occur, and no count is ever [0]. *)
Theorem count_values_spec (mfs : list Microfeature) :
  (∀ d n, count_values mfs !! d = Some n ↔
          n = length (filter (fun f => dim f = d) mfs) ∧ (0 < n)%nat)
  ∧ dom (count_values mfs) = list_to_set (dim <$> mfs).
Proof.
  assert (Hchar : ∀ d n, count_values mfs !! d = Some n ↔
            n = length (filter (fun f => dim f = d) mfs) ∧ (0 < n)%nat).
  { intros d n. unfold count_values. rewrite count_values_from, lookup_empty.
    destruct (length (filter (fun f => dim f = d) mfs)) as [|k].
    - split; [done | lia].
    - split; [intros [= <-]; lia | intros [-> _]; done]. }
  split; [done|].
  apply set_eq. intros d. rewrite elem_of_dom, elem_of_list_to_set, list_elem_of_fmap.
  split.
  - intros [n [-> Hpos]%Hchar].
    destruct (filter (fun f => dim f = d) mfs) as [|f l] eqn:E; [simpl in Hpos; lia|].
    assert (Hf : f ∈ filter (fun f => dim f = d) mfs) by (rewrite E; left).
    apply list_elem_of_filter in Hf as [Hd Hf]. by exists f.
  - intros (f & -> & Hf). eexists. apply Hchar. split; [done|].
    assert (Hin : f ∈ filter (fun g => dim g = dim f) mfs)
      by by apply list_elem_of_filter.
    destruct (filter _ mfs); [by apply not_elem_of_nil in Hin | simpl; lia].
Qed.

(** X2.  The counts do not depend on the order in which the microfeature
    set is iterated. *)
Theorem count_values_perm (mfs mfs' : list Microfeature) :
  mfs ≡ₚ mfs' → count_values mfs = count_values mfs'.
Proof.
  intros Hperm. apply map_eq. intros d. unfold count_values.
  rewrite !count_values_from, !lookup_empty. by rewrite Hperm.
Qed.

Lemma count_values_perm_witness :
  count_values [white; black; square] = count_values [square; black; white].
Proof.
  apply count_values_perm.
  apply NoDup_Permutation.
  - repeat (apply NoDup_cons; split; [set_solver|]). apply NoDup_nil_2.
  - repeat (apply NoDup_cons; split; [set_solver|]). apply NoDup_nil_2.
  - set_solver.
Defined.

(** ** TopDown.__call__ *)

Lemma TopDown_loop_KeyError (chunk : Chunk) (s : R) (l : list Microfeature)
    (acc : gmap Node R) :
  (∀ f, f ∈ l → f ∈ microfeatures chunk) →
  (∃ f, f ∈ l ∧ dim2weight chunk !! dim f = None) →
  for_each (TopDown_step (TopDown_init chunk) s) acc l = Raise KeyError.
Proof.
  revert acc. induction l as [|x l IH]; intros acc Hl (f0 & Hf0 & Hnone).
  - by apply not_elem_of_nil in Hf0.
  - cbn [for_each]. destruct (dim2weight chunk !! dim x) as [w|] eqn:Hw.
    + rewrite (TopDown_step_member chunk s acc x w) by (done || by apply Hl; left).
      rewrite bind_Ok. apply IH; [intros f Hf; apply Hl; by right|].
      exists f0. split; [|done].
      apply elem_of_cons in Hf0 as [->|]; [congruence | done].
    + unfold TopDown_step. cbn [TopDown_init td_chunk].
      by rewrite (getitem_None _ _ Hw).
Qed.

(** X3.  TopDown conserves activation per dimension: when the call returns
    a map, the activations it gives to the microfeatures of one dimension of
    the chunk add up to [strength * weight(dimension)], however many values
    the dimension is split into. *)
Theorem TopDown_conservation (chunk : Chunk) (input_map m : gmap Node R)
    (s w : R) (d : string) :
  input_map !! chunk_node chunk = Some s →
  TopDown_call (TopDown_init chunk) input_map = Ok m →
  d ∈ dim <$> microfeatures chunk →
  dim2weight chunk !! d = Some w →
  sum_over (fun f => default 0%R (m !! NFeature f))
           (filter (fun f => dim f = d) (microfeatures chunk))
  = (s * w)%R.
Proof.
  intros Hs Hcall Hd Hw.
  assert (Hcov : weights_cover chunk).
  { intros f Hf. destruct (dim2weight chunk !! dim f) eqn:E; [by eauto|].
    unfold TopDown_call in Hcall. cbn [TopDown_init td_chunk] in Hcall.
    rewrite Hs in Hcall.
    rewrite TopDown_loop_KeyError in Hcall; [done | done | by exists f]. }
  unfold TopDown_call in Hcall. cbn [TopDown_init td_chunk] in Hcall.
  rewrite Hs in Hcall.
  destruct (TopDown_loop chunk s (microfeatures chunk) ∅)
    as (m' & Hm' & _ & Hval & _); [done | done |].
  rewrite Hm' in Hcall. injection Hcall as ->.
  rewrite (sum_over_ext _ (fun _ => (s * w / INR (count_dim chunk d))%R)).
  - rewrite sum_over_const. fold (count_dim chunk d).
    apply list_elem_of_fmap in Hd as (f & -> & Hf).
    destruct (count_values_member chunk f Hf) as [_ Hpos].
    assert (INR (count_dim chunk (dim f)) ≠ 0%R) by (apply not_0_INR; lia).
    by field.
  - intros f [<- Hf]%list_elem_of_filter. by rewrite (Hval f w Hf Hw).
Qed.

Lemma TopDown_conservation_witness :
  ∃ m, TopDown_call (TopDown_init bw_square_chunk)
         {[chunk_node bw_square_chunk := 1%R]} = Ok m
       ∧ sum_over (fun f => default 0%R (m !! NFeature f))
                  (filter (fun f => dim f = "Color")
                          (microfeatures bw_square_chunk))
         = (1 * 1)%R.
Proof.
  destruct (TopDown_loop bw_square_chunk 1 (microfeatures bw_square_chunk) ∅)
    as (m & Hm & _); [done | apply weights_cover_bw_square |].
  assert (Hcall : TopDown_call (TopDown_init bw_square_chunk)
                    {[chunk_node bw_square_chunk := 1%R]} = Ok m).
  { unfold TopDown_call. cbn [TopDown_init td_chunk].
    by rewrite lookup_singleton_eq. }
  exists m. split; [exact Hcall|].
  apply (TopDown_conservation bw_square_chunk
           {[chunk_node bw_square_chunk := 1%R]} m 1 1 "Color").
  - apply lookup_singleton_eq.
  - exact Hcall.
  - set_solver.
  - reflexivity.
Defined.

(** X4.  On an input that holds the chunk, TopDown fails exactly when one of
    the chunk's microfeatures has a dimension without a weight, and then with
    [KeyError]; it raises nothing else. *)
Theorem TopDown_call_errors (chunk : Chunk) (input_map : gmap Node R) (s : R) :
  input_map !! chunk_node chunk = Some s →
  (TopDown_call (TopDown_init chunk) input_map = Raise KeyError ↔
   ∃ f, f ∈ microfeatures chunk ∧ dim2weight chunk !! dim f = None)
  ∧ (∀ e, TopDown_call (TopDown_init chunk) input_map = Raise e → e = KeyError).
Proof.
  intros Hs. unfold TopDown_call. cbn [TopDown_init td_chunk]. rewrite Hs.
  destruct (decide (Forall (fun f => is_Some (dim2weight chunk !! dim f))
                           (microfeatures chunk))) as [Hall|Hnall].
  - rewrite Forall_forall in Hall.
    destruct (TopDown_loop chunk s (microfeatures chunk) ∅)
      as (m & Hm & _); [done | done |].
    rewrite Hm. split; [|done]. split; [done|].
    intros (f & Hf & Hnone). destruct (Hall f Hf) as [w Hw]. congruence.
  - apply not_Forall_Exists in Hnall; [|intros f; apply _].
    apply Exists_exists in Hnall as (f & Hf & Hnone%eq_None_not_Some).
    rewrite TopDown_loop_KeyError; [| done | by exists f].
    split; [|by intros e [= <-]]. split; [by exists f | done].
Qed.

Lemma TopDown_call_errors_witness :
  TopDown_call (TopDown_init (mkChunk 5 [white] ∅))
               {[NChunk 5%positive := 1%R]} = Raise KeyError.
Proof.
  apply (proj1 (TopDown_call_errors (mkChunk 5 [white] ∅)
                  {[NChunk 5%positive := 1%R]} 1 (lookup_singleton_eq _ _))).
  exists white. split; [set_solver | reflexivity].
Defined.

(** ** BottomUp.__call__ *)

Lemma for_each_ext {A S : Type} (step step' : S → A → result S) (acc : S)
    (l : list A) :
  (∀ a x, x ∈ l → step a x = step' a x) →
  for_each step acc l = for_each step' acc l.
Proof.
  revert acc. induction l as [|x l IH]; intros acc Hext; [done|].
  cbn [for_each]. rewrite Hext by left.
  destruct (step' acc x) as [acc'|e]; [|done].
  rewrite !bind_Ok. apply IH. intros a y Hy. apply Hext. by right.
Qed.

Lemma py_pow_not_KeyError (pow_neg : R → R → R) x y e :
  py_pow pow_neg x y = Raise e → e = ZeroDivisionError ∨ e = OverflowError.
Proof.
  unfold py_pow, float_round.
  repeat case_decide; simpl; intros [= <-]; auto.
Qed.

Lemma py_div_not_KeyError x y e :
  py_div x y = Raise e → e = ZeroDivisionError.
Proof. unfold py_div. case_decide; by intros [= <-]. Qed.

(** X5.  BottomUp raises [KeyError] exactly when a dimension that has a
    microfeature present in the input has no weight (a weight missing for a
    dimension that is absent from the input is never looked up); the only
    other exceptions it can raise are the [OverflowError] of the power and
    the [ZeroDivisionError] of the division. *)
Theorem BottomUp_call_errors (pow_neg : R → R → R) (chunk : Chunk)
    (input_map : gmap Node R) :
  (BottomUp_call pow_neg (BottomUp_init chunk) input_map = Raise KeyError ↔
   ∃ d, d ∈ present_dims (microfeatures chunk) input_map
        ∧ dim2weight chunk !! d = None)
  ∧ (∀ e, BottomUp_call pow_neg (BottomUp_init chunk) input_map = Raise e →
          e = KeyError ∨ e = ZeroDivisionError ∨ e = OverflowError).
Proof.
  rewrite BottomUp_call_spec. unfold BottomUp_spec.
  destruct (decide (Forall _ _)) as [Hall|Hnall].
  - assert (Hzde : ∀ e,
      (divisor ← py_pow pow_neg (weight_sum chunk) (11 / 10)%R ;
       strength ← py_div (weighted_evidence chunk input_map) divisor ;
       Ok ({[chunk_node chunk := strength]} : gmap Node R)) = Raise e →
      e = ZeroDivisionError ∨ e = OverflowError).
    { intros e. destruct (py_pow pow_neg _ _) as [p|e'] eqn:Hp.
      - rewrite bind_Ok.
        destruct (py_div _ p) as [q|e''] eqn:Hq; [done|].
        rewrite bind_Raise. intros [= <-]. left.
        by eapply py_div_not_KeyError.
      - rewrite bind_Raise. intros [= <-]. by eapply py_pow_not_KeyError. }
    split.
    + split; [by intros [?|?]%Hzde|].
      intros (d & Hd & Hnone). rewrite Forall_forall in Hall.
      destruct (Hall d) as [w Hw]; [by apply elem_of_elements | congruence].
    + intros e He. right. by apply Hzde.
  - split; [|intros e [= <-]; by left].
    split; [|done]. intros _.
    apply not_Forall_Exists in Hnall; [|intros d; apply _].
    apply Exists_exists in Hnall as (d & Hd%elem_of_elements & Hnone).
    exists d. split; [done | by apply eq_None_not_Some].
Qed.

(** X6.  BottomUp reads the input only at the chunk's own microfeatures:
    two inputs that agree on them give the same result, whatever else they
    hold. *)
Theorem BottomUp_call_local (pow_neg : R → R → R) (chunk : Chunk)
    (input_map input_map' : gmap Node R) :
  (∀ f, f ∈ microfeatures chunk →
        input_map !! NFeature f = input_map' !! NFeature f) →
  BottomUp_call pow_neg (BottomUp_init chunk) input_map =
  BottomUp_call pow_neg (BottomUp_init chunk) input_map'.
Proof.
  intros Hagree. unfold BottomUp_call. cbn [BottomUp_init bu_chunk].
  rewrite (for_each_ext (BottomUp_step input_map) (BottomUp_step input_map')).
  - done.
  - intros d2a f Hf. rewrite !BottomUp_step_eq. by rewrite (Hagree f Hf).
Qed.

Lemma BottomUp_call_local_witness :
  BottomUp_call Rpower (BottomUp_init heavy_square_chunk)
                (<[NFeature black := 1%R]> white_square_input) =
  BottomUp_call Rpower (BottomUp_init heavy_square_chunk) white_square_input.
Proof.
  apply BottomUp_call_local. intros f Hf.
  apply lookup_insert_ne. unfold heavy_square_chunk in Hf. simpl in Hf.
  set_unfold. by destruct Hf as [->|[->|[]]].
Defined.

Lemma sum_over_le {A : Type} (f g : A → R) (l : list A) :
  (∀ x, x ∈ l → (f x <= g x)%R) → (sum_over f l <= sum_over g l)%R.
Proof.
  induction l as [|x l IH]; intros Hfg; [simpl; lra|].
  rewrite !sum_over_cons.
  assert (f x <= g x)%R by (apply Hfg; left).
  assert (sum_over f l <= sum_over g l)%R
    by (apply IH; intros y Hy; apply Hfg; by right).
  lra.
Qed.

Lemma sum_over_subset (f : string → R) (X Y : gset string) :
  X ⊆ Y →
  (∀ d, d ∈ Y → (0 <= f d)%R) →
  (sum_over f (elements X) <= sum_over f (elements Y))%R.
Proof.
  intros Hsub Hnn. rewrite (union_difference_L X Y Hsub) at 1.
  rewrite (sum_over_perm f _ _ (elements_disj_union X (Y ∖ X) ltac:(set_solver))).
  rewrite sum_over_app.
  assert (0 <= sum_over f (elements (Y ∖ X)))%R.
  { apply sum_over_nonneg. intros d Hd. apply Hnn.
    apply elem_of_elements in Hd. set_solver. }
  lra.
Qed.

Lemma weighted_evidence_bounds (chunk : Chunk) (input_map : gmap Node R) :
  weights_cover chunk →
  weights_nonneg chunk →
  (∀ f x, f ∈ microfeatures chunk → input_map !! NFeature f = Some x →
          (0 <= x <= 1)%R) →
  (0 <= weighted_evidence chunk input_map <= weight_sum chunk)%R.
Proof.
  intros Hcov Hnn Hact.
  assert (Hw : ∀ d, (0 <= weight chunk d)%R).
  { intros d. unfold weight.
    destruct (dim2weight chunk !! d) as [w|] eqn:E; simpl; [by eapply Hnn | lra]. }
  assert (Hmax : ∀ d, d ∈ elements (present_dims (microfeatures chunk) input_map) →
            (0 <= max_activation (microfeatures chunk) input_map d <= 1)%R).
  { intros d Hd%elem_of_elements.
    destruct (max_activation_is_max _ _ _ Hd) as [(f & Hf & _ & Hx) _].
    by eapply Hact. }
  unfold weighted_evidence. split.
  - apply sum_over_nonneg. intros d Hd.
    apply Rmult_le_pos; [apply Hw | by apply Hmax].
  - etrans.
    + apply (sum_over_le _ (weight chunk)). intros d Hd.
      pose proof (Hw d). pose proof (Hmax d Hd). nra.
    + unfold weight_sum. apply sum_over_subset; [|by intros].
      intros d Hd. apply elem_of_dom.
      pose proof (weights_cover_present chunk input_map Hcov) as Hall.
      rewrite Forall_forall in Hall. apply Hall. by apply elem_of_elements.
Qed.

(** X7.  For a chunk whose non-negative weights cover its dimensions and
    sum to [W > 0] with [W^1.1] in the range of the floats, and an input
    whose activations of the chunk's microfeatures lie in [[0, 1]], BottomUp
    returns a strength between [0] and [W / W^1.1]; when [W >= 1] the
    strength is at most [1]. *)
Theorem BottomUp_call_bounds (pow_neg : R → R → R) (chunk : Chunk)
    (input_map : gmap Node R) :
  weights_cover chunk →
  weights_nonneg chunk →
  (0 < weight_sum chunk)%R →
  in_float_range (Rpower (weight_sum chunk) (11 / 10)) →
  (∀ f x, f ∈ microfeatures chunk → input_map !! NFeature f = Some x →
          (0 <= x <= 1)%R) →
  ∃ v, BottomUp_call pow_neg (BottomUp_init chunk) input_map =
       Ok {[chunk_node chunk := v]}
       ∧ (0 <= v <= weight_sum chunk / Rpower (weight_sum chunk) (11 / 10))%R
       ∧ ((1 <= weight_sum chunk)%R → (v <= 1)%R).
Proof.
  intros Hcov Hnn Hpos Hrange Hact.
  eexists. split; [by apply BottomUp_call_pos|].
  pose proof (weighted_evidence_bounds chunk input_map Hcov Hnn Hact) as [H0 H1].
  assert (Hp : (0 < Rpower (weight_sum chunk) (11 / 10))%R).
  { unfold Rpower. apply exp_pos. }
  assert (Hinv : (0 < / Rpower (weight_sum chunk) (11 / 10))%R)
    by by apply Rinv_0_lt_compat.
  unfold Rdiv. split_and!.
  - by apply Rmult_le_pos; [|lra].
  - apply Rmult_le_compat_r; lra.
  - intros HW.
    assert (weight_sum chunk <= Rpower (weight_sum chunk) (11 / 10))%R.
    { rewrite <- (Rpower_1 (weight_sum chunk)) at 1 by done.
      apply Rle_Rpower; lra. }
    apply (Rmult_le_reg_r (Rpower (weight_sum chunk) (11 / 10))); [done|].
    rewrite Rmult_assoc, Rinv_l by lra. lra.
Qed.

Lemma BottomUp_call_bounds_witness :
  ∃ v, BottomUp_call Rpower (BottomUp_init bw_square_chunk)
                     white_square_input =
       Ok {[chunk_node bw_square_chunk := v]}
       ∧ (0 <= v <= weight_sum bw_square_chunk
                     / Rpower (weight_sum bw_square_chunk) (11 / 10))%R
       ∧ ((1 <= weight_sum bw_square_chunk)%R → (v <= 1)%R).
Proof.
  apply BottomUp_call_bounds.
  - apply weights_cover_bw_square.
  - apply weights_nonneg_bw_square.
  - rewrite weight_sum_bw_square. lra.
  - apply in_float_range_bw_square.
  - intros f x Hf Hx. unfold bw_square_chunk, white_square_input in *.
    simpl in Hf. set_unfold.
    destruct Hf as [->|[->|[->|[]]]]; simplify_map_eq; lra.
Defined.

(** ** Rule.__call__ *)

(** X8.  A rule reads the input only at its condition chunks: two inputs
    that agree on them give the same result, whatever else they hold (the
    conclusion chunk included). *)
Theorem Rule_call_local (self : Rule) (input_map input_map' : gmap Node R) :
  (∀ c, c ∈ dom (chunk2weight self) →
        input_map !! NChunk c = input_map' !! NChunk c) →
  Rule_call self input_map = Rule_call self input_map'.
Proof.
  intros Hagree. rewrite !Rule_call_sum. do 2 f_equal.
  unfold rule_strength. apply sum_over_ext.
  intros c Hc%elem_of_elements. by rewrite (Hagree c Hc).
Qed.

Lemma Rule_call_local_witness :
  Rule_call half_rule
    {[NChunk 1%positive := 0%R; NChunk 2%positive := 1%R;
      NChunk 3%positive := 1%R]}
  = Rule_call half_rule {[NChunk 1%positive := 0%R; NChunk 2%positive := 1%R]}.
Proof.
  apply Rule_call_local. intros c Hc.
  unfold half_rule in Hc. simpl in Hc.
  rewrite dom_insert_L, dom_singleton_L in Hc.
  apply elem_of_union in Hc as [->%elem_of_singleton| ->%elem_of_singleton];
    by simplify_map_eq.
Defined.

(** X9.  With non-negative weights and input strengths of the condition
    chunks in [[0, 1]], the conclusion strength lies between [0] and the sum
    of the weights; so weights that sum to at most [1] keep it within
    [[0, 1]]. *)
Theorem Rule_call_bounds (self : Rule) (input_map : gmap Node R) :
  (∀ c w, chunk2weight self !! c = Some w → (0 <= w)%R) →
  (∀ c x, c ∈ dom (chunk2weight self) → input_map !! NChunk c = Some x →
          (0 <= x <= 1)%R) →
  ∃ v, Rule_call self input_map = Ok {[NChunk (conclusion_chunk self) := v]}
       ∧ (0 <= v
          <= sum_over (fun c => default 0%R (chunk2weight self !! c))
                      (elements (dom (chunk2weight self))))%R.
Proof.
  intros Hw Hx. eexists. split; [apply Rule_call_sum|].
  assert (Hw' : ∀ c, (0 <= default 0 (chunk2weight self !! c))%R).
  { intros c. destruct (chunk2weight self !! c) as [w|] eqn:E; simpl;
      [by eapply Hw | lra]. }
  assert (Hx' : ∀ c, c ∈ elements (dom (chunk2weight self)) →
                     (0 <= default 0 (input_map !! NChunk c) <= 1)%R).
  { intros c Hc%elem_of_elements.
    destruct (input_map !! NChunk c) as [x|] eqn:E; simpl;
      [by eapply Hx | lra]. }
  unfold rule_strength. split.
  - apply sum_over_nonneg. intros c Hc.
    apply Rmult_le_pos; [apply Hw' | by apply Hx'].
  - apply sum_over_le. intros c Hc.
    pose proof (Hw' c). pose proof (Hx' c Hc). nra.
Qed.

Lemma Rule_call_bounds_witness :
  ∃ v, Rule_call half_rule
         {[NChunk 1%positive := (1 / 2)%R; NChunk 2%positive := 1%R]}
       = Ok {[NChunk (conclusion_chunk half_rule) := v]}
       ∧ (0 <= v
          <= sum_over (fun c => default 0%R (chunk2weight half_rule !! c))
                      (elements (dom (chunk2weight half_rule))))%R.
Proof.
  apply Rule_call_bounds.
  - intros c w. unfold half_rule. simpl.
    intros [[_ <-]|[_ [_ <-]%lookup_singleton_Some]]%lookup_insert_Some; lra.
  - intros c x _.
    intros [[_ <-]|[_ [_ <-]%lookup_singleton_Some]]%lookup_insert_Some; lra.
Defined.

(** ** MaxJunction.__call__ *)

Lemma is_max_of_unique (o o' : option R) (vals vals' : list R) :
  (∀ x, x ∈ vals ↔ x ∈ vals') →
  is_max_of o vals → is_max_of o' vals' → o = o'.
Proof.
  intros Hmem. destruct o as [v|], o' as [v'|]; simpl.
  - intros [Hin Hub] [Hin' Hub']. f_equal. apply Rle_antisym.
    + apply Hub'. by apply Hmem.
    + apply Hub. by apply Hmem.
  - intros [Hin _] ->. apply Hmem in Hin. by apply not_elem_of_nil in Hin.
  - intros -> [Hin' _]. apply Hmem in Hin'. by apply not_elem_of_nil in Hin'.
  - done.
Qed.

Lemma MaxJunction_call_lookup (input_maps : list (gmap Node R)) :
  ∃ r, MaxJunction_call input_maps = Ok r
       ∧ ∀ k, is_max_of (r !! k) (node_values input_maps k).
Proof.
  destruct (junction_inv_loop input_maps (elements (get_nodes input_maps)) [] ∅)
    as (r & Hr & Hinv).
  { apply NoDup_elements. }
  { intros k _. apply not_elem_of_nil. }
  { intros k. by rewrite decide_False by apply not_elem_of_nil. }
  rewrite app_nil_l in Hinv. exists r. split; [done|].
  intros k. specialize (Hinv k).
  destruct (decide (k ∈ elements (get_nodes input_maps))) as [Hk|Hk]; [done|].
  rewrite Hinv. rewrite elem_of_elements, node_values_nonempty in Hk.
  simpl. destruct (node_values input_maps k); [done|]. by destruct Hk.
Qed.

Lemma MaxJunction_call_unique (input_maps input_maps' : list (gmap Node R)) :
  (∀ k x, x ∈ node_values input_maps k ↔ x ∈ node_values input_maps' k) →
  MaxJunction_call input_maps = MaxJunction_call input_maps'.
Proof.
  intros Hmem.
  destruct (MaxJunction_call_lookup input_maps) as (r & -> & Hr).
  destruct (MaxJunction_call_lookup input_maps') as (r' & -> & Hr').
  f_equal. apply map_eq. intros k.
  by eapply is_max_of_unique; [apply Hmem | |].
Qed.

(** X10.  The junction does not depend on the order of its input maps. *)
Theorem MaxJunction_call_perm (input_maps input_maps' : list (gmap Node R)) :
  input_maps ≡ₚ input_maps' →
  MaxJunction_call input_maps = MaxJunction_call input_maps'.
Proof.
  intros Hperm. apply MaxJunction_call_unique. intros k x.
  unfold node_values. by rewrite Hperm.
Qed.

Lemma MaxJunction_call_perm_witness :
  MaxJunction_call [white_square_input; ∅] =
  MaxJunction_call [∅; white_square_input].
Proof. apply MaxJunction_call_perm. apply perm_swap. Defined.

(** X11.  Junctions compose: joining the results of two junctions is the
    same as one junction over all their input maps. *)
Theorem MaxJunction_call_app (maps1 maps2 : list (gmap Node R)) :
  ∃ r1 r2, MaxJunction_call maps1 = Ok r1
           ∧ MaxJunction_call maps2 = Ok r2
           ∧ MaxJunction_call [r1; r2] = MaxJunction_call (maps1 ++ maps2).
Proof.
  destruct (MaxJunction_call_lookup maps1) as (r1 & Hr1 & Hmax1).
  destruct (MaxJunction_call_lookup maps2) as (r2 & Hr2 & Hmax2).
  exists r1, r2. split_and!; [done | done |].
  destruct (MaxJunction_call_lookup [r1; r2]) as (r & -> & Hr).
  destruct (MaxJunction_call_lookup (maps1 ++ maps2)) as (r' & -> & Hr').
  f_equal. apply map_eq. intros k.
  specialize (Hmax1 k). specialize (Hmax2 k).
  specialize (Hr k). specialize (Hr' k).
  unfold node_values in *. rewrite omap_app in Hr'. simpl in Hr.
  destruct (r !! k) as [v|] eqn:Ev, (r' !! k) as [v'|] eqn:Ev'; simpl in *.
  - f_equal. destruct Hr as [Hin Hub], Hr' as [Hin' Hub']. apply Rle_antisym.
    + apply Hub'. destruct (r1 !! k) as [v1|], (r2 !! k) as [v2|];
        simpl in *; set_solver.
    + apply elem_of_app in Hin' as [Hin'|Hin'].
      * destruct (r1 !! k) as [v1|]; simpl in *.
        -- destruct Hmax1 as [_ Hub1]. etrans; [by apply Hub1|].
           apply Hub. destruct (r2 !! k); set_solver.
        -- rewrite Hmax1 in Hin'. by apply not_elem_of_nil in Hin'.
      * destruct (r2 !! k) as [v2|]; simpl in *.
        -- destruct Hmax2 as [_ Hub2]. etrans; [by apply Hub2|].
           apply Hub. destruct (r1 !! k); set_solver.
        -- rewrite Hmax2 in Hin'. by apply not_elem_of_nil in Hin'.
  - destruct Hr as [Hin _].
    apply app_eq_nil in Hr' as [Hn1 Hn2].
    rewrite Hn1 in Hmax1. rewrite Hn2 in Hmax2.
    destruct (r1 !! k) as [v1|]; simpl in *.
    { destruct Hmax1 as [Hv1 _]. by apply not_elem_of_nil in Hv1. }
    destruct (r2 !! k) as [v2|]; simpl in *.
    { destruct Hmax2 as [Hv2 _]. by apply not_elem_of_nil in Hv2. }
    by apply not_elem_of_nil in Hin.
  - destruct Hr' as [Hin' _].
    destruct (r1 !! k) as [v1|], (r2 !! k) as [v2|]; simpl in *; try done.
    rewrite Hmax1, Hmax2 in Hin'. by apply not_elem_of_nil in Hin'.
  - done.
Qed.

(** X12.  Edge cases of the junction: without input maps it returns the
    empty map; a single map is returned as it is; and joining a map with
    itself changes nothing. *)
Theorem MaxJunction_call_single :
  MaxJunction_call [] = Ok ∅
  ∧ ∀ m : gmap Node R,
      MaxJunction_call [m] = Ok m ∧ MaxJunction_call [m; m] = Ok m.
Proof.
  split.
  - destruct (MaxJunction_call_lookup []) as (r & -> & Hr).
    f_equal. apply map_eq. intros k. specialize (Hr k).
    rewrite lookup_empty. by destruct (r !! k) as [v|]; [destruct Hr as [?%not_elem_of_nil _]|].
  - intros m. split.
    + destruct (MaxJunction_call_lookup [m]) as (r & -> & Hr).
      f_equal. apply map_eq. intros k. specialize (Hr k).
      apply (is_max_of_unique _ _ _ (node_values [m] k) (fun x => reflexivity _) Hr).
      unfold node_values. simpl. destruct (m !! k) as [x|]; simpl; [|done].
      split; [set_solver|]. intros y ->%list_elem_of_singleton. lra.
    + destruct (MaxJunction_call_lookup [m; m]) as (r & -> & Hr).
      f_equal. apply map_eq. intros k. specialize (Hr k).
      apply (is_max_of_unique _ _ _ (node_values [m; m] k) (fun x => reflexivity _) Hr).
      unfold node_values. simpl. destruct (m !! k) as [x|]; simpl; [|done].
      split; [set_solver|]. intros y Hy.
      assert (y = x) as -> by set_solver. lra.
Qed.

(** ** BoltzmannSelector.__call__ *)

(** X13.  With an empty candidate set the selector never divides (there is
    no term to normalise) and fails in the draw with [ValueError], for every
    temperature, input and sample. *)
Theorem Boltzmann_call_no_candidates (self : BoltzmannSelector)
    (chunk2strength : gmap positive R) (u : R) :
  chunks self = [] →
  Boltzmann_probabilities self chunk2strength = Ok []
  ∧ Boltzmann_call self chunk2strength u = Raise ValueError.
Proof.
  intros Hnil. unfold Boltzmann_call, Boltzmann_probabilities.
  rewrite Hnil. split; reflexivity.
Qed.

Lemma Boltzmann_call_no_candidates_witness :
  Boltzmann_call (mkBoltzmannSelector [] 1) ∅ 0 = Raise ValueError.
Proof.
  exact (proj2 (Boltzmann_call_no_candidates (mkBoltzmannSelector [] 1) ∅ 0
                  eq_refl)).
Defined.

Lemma Boltzmann_step_absent (self : BoltzmannSelector)
    (chunk2strength : gmap positive R) (terms : gmap positive np_float)
    (divisor : np_float) c :
  chunk2strength !! c = None →
  Boltzmann_step self chunk2strength (terms, divisor) c =
  Ok (<[c := Finite 1]> terms, np_add divisor (Finite 1)).
Proof.
  intros Hc. unfold Boltzmann_step.
  rewrite (getitem_None _ _ Hc), bind_Raise. cbn [try_except_KeyError].
  rewrite bind_Ok.
  by rewrite (getitem_Some _ _ _ (lookup_insert_eq _ _ _)).
Qed.

Lemma Boltzmann_step_zero_temperature (self : BoltzmannSelector)
    (chunk2strength : gmap positive R)
    (st : gmap positive np_float * np_float) c s :
  temperature self = 0%R →
  chunk2strength !! c = Some s →
  Boltzmann_step self chunk2strength st c = Raise ZeroDivisionError.
Proof.
  intros HT Hc. destruct st as [terms divisor]. unfold Boltzmann_step.
  rewrite (getitem_Some _ _ _ Hc), bind_Ok, HT, py_div_zero.
  by rewrite bind_Raise.
Qed.

Lemma Boltzmann_loop_zero_temperature (self : BoltzmannSelector)
    (chunk2strength : gmap positive R) (l : list positive)
    (st : gmap positive np_float * np_float) :
  temperature self = 0%R →
  (∃ c, c ∈ l ∧ is_Some (chunk2strength !! c)) →
  for_each (Boltzmann_step self chunk2strength) st l = Raise ZeroDivisionError.
Proof.
  intros HT. revert st. induction l as [|x l IH]; intros st (c & Hc & Hin).
  - by apply not_elem_of_nil in Hc.
  - cbn [for_each]. destruct (chunk2strength !! x) as [s|] eqn:Hx.
    + by rewrite (Boltzmann_step_zero_temperature _ _ _ _ s HT Hx).
    + destruct st as [terms divisor].
      rewrite Boltzmann_step_absent, bind_Ok by done. apply IH.
      exists c. split; [|done].
      apply elem_of_cons in Hc as [->|]; [|done].
      rewrite Hx in Hin. by destruct Hin.
Qed.

(** X14.  At temperature zero the selector fails with
    [ZeroDivisionError] as soon as one candidate is a key of the input: the
    strength of that candidate is divided by the temperature. *)
Theorem Boltzmann_call_zero_temperature (self : BoltzmannSelector)
    (chunk2strength : gmap positive R) (u : R) :
  temperature self = 0%R →
  (∃ c, c ∈ chunks self ∧ is_Some (chunk2strength !! c)) →
  Boltzmann_call self chunk2strength u = Raise ZeroDivisionError.
Proof.
  intros HT Hc. unfold Boltzmann_call, Boltzmann_probabilities.
  by rewrite Boltzmann_loop_zero_temperature.
Qed.

Lemma Boltzmann_call_zero_temperature_witness :
  Boltzmann_call (mkBoltzmannSelector [1%positive; 2%positive] 0)
                 {[2%positive := 1%R]} (1 / 2)
  = Raise ZeroDivisionError.
Proof.
  apply Boltzmann_call_zero_temperature; [done|].
  exists 2%positive. split; [set_solver | by rewrite lookup_singleton_eq].
Defined.

Lemma Boltzmann_loop_absent (self : BoltzmannSelector)
    (chunk2strength : gmap positive R) (l : list positive)
    (terms : gmap positive np_float) (divisor : R) :
  (∀ c, c ∈ l → chunk2strength !! c = None) →
  ∃ terms',
    for_each (Boltzmann_step self chunk2strength) (terms, Finite divisor) l =
    Ok (terms', Finite (divisor + INR (length l)))
    ∧ (∀ c, c ∈ l → terms' !! c = Some (Finite 1))
    ∧ (∀ c, c ∉ l → terms' !! c = terms !! c).
Proof.
  revert terms divisor.
  induction l as [|x l IH]; intros terms divisor Habs.
  - exists terms. simpl. split_and!; [do 3 f_equal; lra | | done].
    intros c Hc. by apply not_elem_of_nil in Hc.
  - destruct (IH (<[x := Finite 1]> terms) (divisor + 1)%R)
      as (terms' & Hloop & Hin & Hout).
    { intros c Hc. apply Habs. by right. }
    exists terms'. cbn [for_each].
    rewrite Boltzmann_step_absent, bind_Ok by (apply Habs; left).
    cbn [np_add]. rewrite Hloop. split_and!.
    + do 3 f_equal. cbn [length]. rewrite S_INR. lra.
    + intros c Hc. destruct (decide (c ∈ l)) as [Hl|Hl]; [by apply Hin|].
      assert (c = x) as -> by set_solver.
      by rewrite Hout, lookup_insert_eq.
    + intros c Hc. rewrite Hout by set_solver.
      apply lookup_insert_ne. set_solver.
Qed.

(** X15.  When no candidate is a key of the input, every candidate gets the
    probability [1 / n], [n] being the number of candidates, at every
    temperature (zero included: the temperature is never used). *)
Theorem Boltzmann_probabilities_uniform (self : BoltzmannSelector)
    (chunk2strength : gmap positive R) :
  chunks self ≠ [] →
  (∀ c, c ∈ chunks self → chunk2strength !! c = None) →
  Boltzmann_probabilities self chunk2strength =
  Ok ((fun _ => Finite (1 / INR (length (chunks self)))) <$> chunks self).
Proof.
  intros Hne Habs. unfold Boltzmann_probabilities.
  destruct (Boltzmann_loop_absent self chunk2strength (chunks self) ∅ 0 Habs)
    as (terms & Hloop & Hin & _).
  rewrite Hloop, bind_Ok. cbn [fst snd]. apply comprehension_Ok.
  intros c Hc. rewrite (getitem_Some _ _ _ (Hin c Hc)), bind_Ok.
  rewrite Rplus_0_l. unfold np_div. rewrite decide_False; [done|].
  apply not_0_INR. by destruct (chunks self).
Qed.

Lemma Boltzmann_probabilities_uniform_witness :
  Boltzmann_probabilities two_chunk_selector ∅ =
  Ok ((fun _ => Finite (1 / INR (length (chunks two_chunk_selector))))
        <$> chunks two_chunk_selector).
Proof. by apply Boltzmann_probabilities_uniform. Defined.

Lemma np_term_insert_zero (self : BoltzmannSelector)
    (chunk2strength : gmap positive R) c c' :
  chunk2strength !! c = None →
  np_term self (<[c := 0%R]> chunk2strength) c' =
  np_term self chunk2strength c'.
Proof.
  intros Hc. unfold np_term.
  destruct (decide (c = c')) as [<-|Hne].
  - rewrite lookup_insert_eq, Hc. unfold Rdiv. rewrite Rmult_0_l.
    apply np_exp_zero.
  - by rewrite lookup_insert_ne.
Qed.

(** X16.  A candidate that is missing from the input is treated as one
    present with strength [0]: adding it with strength [0] changes neither
    the probabilities nor the draw. *)
Theorem Boltzmann_call_missing_is_zero (self : BoltzmannSelector)
    (chunk2strength : gmap positive R) (c : positive) (u : R) :
  temperature self ≠ 0%R →
  chunk2strength !! c = None →
  Boltzmann_probabilities self (<[c := 0%R]> chunk2strength) =
    Boltzmann_probabilities self chunk2strength
  ∧ Boltzmann_call self (<[c := 0%R]> chunk2strength) u =
    Boltzmann_call self chunk2strength u.
Proof.
  intros HT Hc.
  assert (Hp : Boltzmann_probabilities self (<[c := 0%R]> chunk2strength) =
               Boltzmann_probabilities self chunk2strength).
  { rewrite !Boltzmann_probabilities_np by done. f_equal.
    assert (Hd : np_divisor self (<[c := 0%R]> chunk2strength) (chunks self)
                 = np_divisor self chunk2strength (chunks self)).
    { unfold np_divisor. f_equal. apply list_fmap_ext.
      intros i c' _. by apply np_term_insert_zero. }
    rewrite Hd. apply list_fmap_ext. intros i c' _.
    by rewrite np_term_insert_zero. }
  split; [done|]. unfold Boltzmann_call. by rewrite Hp.
Qed.

Lemma Boltzmann_call_missing_is_zero_witness :
  Boltzmann_call two_chunk_selector (<[2%positive := 0%R]> {[1%positive := 1%R]})
                 (1 / 2)
  = Boltzmann_call two_chunk_selector {[1%positive := 1%R]} (1 / 2).
Proof.
  apply Boltzmann_call_missing_is_zero.
  - simpl. lra.
  - by rewrite lookup_singleton_ne.
Defined.

Lemma np_exp_mono (x y : R) : (x <= y)%R → np_le (np_exp x) (np_exp y).
Proof.
  intros Hxy.
  assert (Hexp : (exp x <= exp y)%R).
  { destruct (Rle_lt_or_eq_dec _ _ Hxy) as [Hlt| ->]; [|lra].
    apply Rlt_le. by apply exp_increasing. }
  unfold np_exp. do 2 destruct (decide (float_huge <= _)%R); try done.
  - lra.
  - by apply flush_tiny_mono.
Qed.

Lemma np_exp_nonneg (x : R) :
  np_exp x = PosInf ∨ ∃ r, np_exp x = Finite r ∧ (0 <= r)%R.
Proof.
  unfold np_exp. destruct (decide _); [by left | right].
  eexists. split; [done|].
  apply flush_tiny_bounds, Rlt_le, exp_pos.
Qed.

Lemma np_term_nonneg (self : BoltzmannSelector)
    (chunk2strength : gmap positive R) c :
  np_term self chunk2strength c = PosInf
  ∨ ∃ r, np_term self chunk2strength c = Finite r ∧ (0 <= r)%R.
Proof.
  unfold np_term. destruct (chunk2strength !! c); [apply np_exp_nonneg|].
  right. exists 1%R. split; [done | lra].
Qed.

(** The divisor is a non-negative number or infinity, never NaN. *)
Lemma np_divisor_nonneg (self : BoltzmannSelector)
    (chunk2strength : gmap positive R) (l : list positive) (a : np_float) :
  (a = PosInf ∨ ∃ r, a = Finite r ∧ (0 <= r)%R) →
  foldl np_add a (np_term self chunk2strength <$> l) = PosInf
  ∨ ∃ r, foldl np_add a (np_term self chunk2strength <$> l) = Finite r
         ∧ (0 <= r)%R.
Proof.
  revert a. induction l as [|x l IH]; intros a Ha; [done|].
  csimpl. apply IH.
  destruct Ha as [->|(r & -> & Hr)];
    destruct (np_term_nonneg self chunk2strength x) as [->|(t & -> & Ht)];
    cbn [np_add]; try by left.
  right. eexists. split; [done | lra].
Qed.

(** X17.  At a positive temperature the probabilities handed to the draw
    are monotone in the strengths wherever they are numbers: of two
    candidates that are keys of the input and whose probabilities are not
    NaN, the one with the larger strength has a probability at least as
    large. *)
Theorem Boltzmann_probabilities_monotone (self : BoltzmannSelector)
    (chunk2strength : gmap positive R) (ps : list np_float) (i j : nat)
    (c1 c2 : positive) (s1 s2 p1 p2 : R) :
  (0 < temperature self)%R →
  Boltzmann_probabilities self chunk2strength = Ok ps →
  chunks self !! i = Some c1 → chunks self !! j = Some c2 →
  ps !! i = Some (Finite p1) → ps !! j = Some (Finite p2) →
  chunk2strength !! c1 = Some s1 → chunk2strength !! c2 = Some s2 →
  (s1 <= s2)%R →
  (p1 <= p2)%R.
Proof.
  intros HT Hps Hi Hj Hp1 Hp2 Hs1 Hs2 Hle.
  rewrite Boltzmann_probabilities_np in Hps by lra.
  injection Hps as <-.
  rewrite list_lookup_fmap, Hi in Hp1. rewrite list_lookup_fmap, Hj in Hp2.
  injection Hp1 as Hp1. injection Hp2 as Hp2.
  assert (Hmono : np_le (np_term self chunk2strength c1)
                        (np_term self chunk2strength c2)).
  { unfold np_term. rewrite Hs1, Hs2. apply np_exp_mono.
    apply Rmult_le_compat_r; [|done]. by apply Rlt_le, Rinv_0_lt_compat. }
  destruct (np_term_nonneg self chunk2strength c1) as [E1|(t1 & E1 & Ht1)];
    rewrite E1 in *.
  { by destruct (np_divisor self chunk2strength (chunks self)). }
  destruct (np_term_nonneg self chunk2strength c2) as [E2|(t2 & E2 & Ht2)];
    rewrite E2 in *.
  { by destruct (np_divisor self chunk2strength (chunks self)). }
  destruct (np_divisor_nonneg self chunk2strength (chunks self) (Finite 0))
    as [Hd|(d & Hd & Hd0)]; [right; exists 0%R; split; [done | lra] | |];
    fold (np_divisor self chunk2strength (chunks self)) in Hd;
    rewrite Hd in *; cbn [np_div np_le] in *.
  - injection Hp1 as <-. injection Hp2 as <-. lra.
  - destruct (decide (d = 0%R)) as [->|Hd1].
    + by destruct (decide (t1 = 0%R)).
    + injection Hp1 as <-. injection Hp2 as <-.
      apply Rmult_le_compat_r; [|done].
      apply Rlt_le, Rinv_0_lt_compat. lra.
Qed.

Lemma Boltzmann_probabilities_monotone_witness :
  ∃ p1 p2,
    Boltzmann_probabilities two_chunk_selector
      {[1%positive := 0%R; 2%positive := 1%R]}
    = Ok [Finite p1; Finite p2] ∧ (p1 <= p2)%R.
Proof.
  assert (Hne : chunks two_chunk_selector ≠ []) by done.
  assert (HT : (0 < temperature two_chunk_selector)%R) by (simpl; lra).
  assert (HT0 : temperature two_chunk_selector ≠ 0%R) by (simpl; lra).
  assert (Hexp : (1 <= exp (1 / 1) <= 3)%R).
  { replace (1 / 1)%R with 1%R by lra.
    pose proof exp_le_3. pose proof (exp_ineq1 1). lra. }
  assert (Hexp0 : exp (0 / 1) = 1%R).
  { replace (0 / 1)%R with 0%R by lra. apply exp_0. }
  assert (Hlo : ∀ c, c ∈ chunks two_chunk_selector →
            (float_tiny < boltzmann_term two_chunk_selector
                            {[1%positive := 0%R; 2%positive := 1%R]} c)%R).
  { pose proof float_tiny_lt_1.
    intros c Hc. unfold boltzmann_term, two_chunk_selector in *. simpl in *.
    set_unfold. destruct Hc as [->|[->|[]]]; simplify_map_eq; lra. }
  assert (Hhi : (boltzmann_divisor two_chunk_selector
                   {[1%positive := 0%R; 2%positive := 1%R]} < float_huge)%R).
  { apply float_huge_gt. unfold boltzmann_divisor, boltzmann_term.
    simpl. simplify_map_eq. lra. }
  pose proof (Boltzmann_probabilities_eq two_chunk_selector
                {[1%positive := 0%R; 2%positive := 1%R]} Hne HT0 Hlo Hhi)
    as Hps.
  eexists _, _. split; [exact Hps|].
  apply (Boltzmann_probabilities_monotone two_chunk_selector
           {[1%positive := 0%R; 2%positive := 1%R]} _ 0 1
           1%positive 2%positive 0 1 _ _ HT Hps);
    try reflexivity.
  lra.
Defined.

(** ** BLA.update, BLA.compute_bla, BLA.below_density *)

Lemma comprehension_snoc {A B : Type} (f : A → result B) (l : list A) x ys y :
  comprehension f l = Ok ys → f x = Ok y →
  comprehension f (l ++ [x]) = Ok (ys ++ [y]).
Proof.
  revert ys. induction l as [|a l IH]; intros ys Hl Hx.
  - injection Hl as <-. simpl. by rewrite Hx.
  - cbn [comprehension] in Hl. rewrite <- app_comm_cons. cbn [comprehension].
    destruct (f a) as [b|e]; [|done]. rewrite bind_Ok in Hl |- *.
    destruct (comprehension f l) as [ys'|e]; [|done].
    rewrite bind_Ok in Hl. injection Hl as <-.
    by rewrite (IH ys' eq_refl Hx).
Qed.

Lemma py_sum_snoc (xs : list R) (x : R) :
  py_sum (xs ++ [x]) = (py_sum xs + x)%R.
Proof. unfold py_sum. by rewrite foldl_app. Qed.

(** X18.  An update adds one term to the activation: if [compute_bla]
    returns [v] at the time [t'], then after [update(t)] with [t] earlier
    than [t'] and [(t' - t)^(-decay_rate)] in the range of the floats, it
    returns [v + amplitude * (t' - t)^(-decay_rate)] at [t']. *)
Theorem compute_bla_update (pow_neg : R → R → R) (self : BLA) (t t' v : R) :
  compute_bla pow_neg self t' = Ok v →
  (t < t')%R →
  in_float_range (Rpower (t' - t) (- decay_rate self)) →
  compute_bla pow_neg (BLA_update self t) t' =
  Ok (v + amplitude self * Rpower (t' - t) (- decay_rate self))%R.
Proof.
  unfold compute_bla. cbn [BLA_update timestamps initial_activation amplitude
                           decay_rate].
  destruct (comprehension _ (timestamps self)) as [ys|e] eqn:Hc; [|done].
  rewrite bind_Ok. intros [= <-] Hlt Hrange.
  assert (Hpos : (0 < t' - t)%R) by lra.
  rewrite (comprehension_snoc _ _ t ys _ Hc
             (py_pow_in_range pow_neg _ (- decay_rate self) Hpos Hrange)).
  rewrite bind_Ok, py_sum_snoc. f_equal. lra.
Qed.

Lemma in_float_range_unit_gap (d : R) : in_float_range (Rpower (1 - 0) d).
Proof.
  replace (1 - 0)%R with 1%R by lra. rewrite Rpower_base_1.
  apply in_float_range_mid. lra.
Qed.

Lemma compute_bla_update_witness :
  compute_bla Rpower (BLA_update (BLA_init 0 2 (1 / 2) 0) 0) 1 =
  Ok (0 + 2 * Rpower (1 - 0) (- (1 / 2)))%R.
Proof.
  apply (compute_bla_update Rpower (BLA_init 0 2 (1 / 2) 0) 0 1 0).
  - unfold compute_bla. simpl. f_equal. unfold py_sum. simpl. lra.
  - lra.
  - apply in_float_range_unit_gap.
Defined.

Lemma Rpower_neg_antitone (x y d : R) :
  (0 <= d)%R → (0 < x <= y)%R → (Rpower y (- d) <= Rpower x (- d))%R.
Proof.
  intros Hd Hxy. rewrite !Rpower_Ropp.
  apply Rinv_le_contravar; [unfold Rpower; apply exp_pos|].
  by apply Rle_Rpower_l.
Qed.

(** X19.  Queried after all recorded uses, where no power
    [(t_now - t)^(-decay_rate)] is too large for a float, and with a
    non-negative amplitude, [compute_bla] returns at least
    [initial_activation]: no recorded use adds a negative term. *)
Theorem compute_bla_lower_bound (pow_neg : R → R → R) (self : BLA) (t_now : R) :
  (0 <= amplitude self)%R →
  (∀ t, t ∈ timestamps self → (t < t_now)%R) →
  (∀ t, t ∈ timestamps self →
        (Rpower (t_now - t) (- decay_rate self) < float_huge)%R) →
  ∃ v, compute_bla pow_neg self t_now = Ok v
       ∧ (initial_activation self <= v)%R.
Proof.
  intros Hamp Hlater Hrange. eexists.
  split; [apply compute_bla_no_overflow; by split; auto|].
  assert (0 <= sum_over
                 (fun t => flush_tiny (Rpower (t_now - t) (- decay_rate self)))
                 (timestamps self))%R.
  { apply sum_over_nonneg. intros t _.
    apply flush_tiny_bounds, Rlt_le, Rpower_pos. }
  unfold bla_value. nra.
Qed.

Lemma compute_bla_lower_bound_witness :
  ∃ v, compute_bla Rpower (BLA_update (BLA_init 0 2 (1 / 2) 0) 0) 1 = Ok v
       ∧ (initial_activation (BLA_update (BLA_init 0 2 (1 / 2) 0) 0) <= v)%R.
Proof.
  apply compute_bla_lower_bound.
  - simpl. lra.
  - simpl. intros t ->%list_elem_of_singleton. lra.
  - simpl. intros t ->%list_elem_of_singleton.
    apply (in_float_range_unit_gap (- (1 / 2))).
Defined.

Lemma compute_bla_antitone (pow_neg : R → R → R) (self : BLA) (t1 t2 : R) :
  (0 <= amplitude self)%R →
  (0 <= decay_rate self)%R →
  (∀ t, t ∈ timestamps self → (t < t1)%R) →
  (∀ t, t ∈ timestamps self →
        (Rpower (t1 - t) (- decay_rate self) < float_huge)%R) →
  (t1 <= t2)%R →
  ∃ v1 v2, compute_bla pow_neg self t1 = Ok v1
           ∧ compute_bla pow_neg self t2 = Ok v2
           ∧ (v2 <= v1)%R.
Proof.
  intros Hamp Hd Hlater Hrange Hle.
  assert (Hpow : ∀ t, t ∈ timestamps self →
            (Rpower (t2 - t) (- decay_rate self)
             <= Rpower (t1 - t) (- decay_rate self))%R).
  { intros t Ht. specialize (Hlater t Ht). apply Rpower_neg_antitone; lra. }
  eexists _, _. split_and!.
  - apply compute_bla_no_overflow. by split; auto.
  - apply compute_bla_no_overflow. intros t Ht.
    specialize (Hlater t Ht). specialize (Hrange t Ht).
    specialize (Hpow t Ht). split; lra.
  - assert (sum_over
              (fun t => flush_tiny (Rpower (t2 - t) (- decay_rate self)))
              (timestamps self)
            <= sum_over
                 (fun t => flush_tiny (Rpower (t1 - t) (- decay_rate self)))
                 (timestamps self))%R.
    { apply sum_over_le. intros t Ht. by apply flush_tiny_mono, Hpow. }
    unfold bla_value. nra.
Qed.

(** X20.  Activation decays: with a non-negative amplitude and decay rate
    and no further update, [compute_bla] at a later time is at most what it
    is at an earlier time, both after all recorded uses and the earlier one
    far enough from them for no power to overflow. *)
Theorem compute_bla_decays (pow_neg : R → R → R) (self : BLA) (t1 t2 : R) :
  (0 <= amplitude self)%R →
  (0 <= decay_rate self)%R →
  (∀ t, t ∈ timestamps self → (t < t1)%R) →
  (∀ t, t ∈ timestamps self →
        (Rpower (t1 - t) (- decay_rate self) < float_huge)%R) →
  (t1 <= t2)%R →
  ∃ v1 v2, compute_bla pow_neg self t1 = Ok v1
           ∧ compute_bla pow_neg self t2 = Ok v2
           ∧ (v2 <= v1)%R.
Proof. apply compute_bla_antitone. Qed.

Lemma compute_bla_decays_witness :
  ∃ v1 v2,
    compute_bla Rpower (BLA_update (BLA_init 0 2 (1 / 2) 0) 0) 1 = Ok v1
    ∧ compute_bla Rpower (BLA_update (BLA_init 0 2 (1 / 2) 0) 0) 4 = Ok v2
    ∧ (v2 <= v1)%R.
Proof.
  apply compute_bla_decays.
  - simpl. lra.
  - simpl. lra.
  - simpl. intros t ->%list_elem_of_singleton. lra.
  - simpl. intros t ->%list_elem_of_singleton.
    apply (in_float_range_unit_gap (- (1 / 2))).
  - lra.
Defined.

(** X21.  [below_density] passes on the division by zero of [compute_bla]
    at the time of the latest recorded use (for a positive decay rate, and
    earlier uses far enough back for no power to overflow); and once a
    record is below its density it stays below at every later time, as long
    as it is not updated (non-negative amplitude and decay rate). *)
Theorem below_density_spec (pow_neg : R → R → R) (self : BLA) :
  (∀ t, t ∈ timestamps self → (0 < decay_rate self)%R →
        (∀ t', t' ∈ timestamps self → (t' <= t)%R) →
        (∀ t', t' ∈ timestamps self → (t' < t)%R →
               (Rpower (t - t') (- decay_rate self) < float_huge)%R) →
        below_density pow_neg self t = Raise ZeroDivisionError)
  ∧ (∀ t1 t2,
       (0 <= amplitude self)%R →
       (0 <= decay_rate self)%R →
       (∀ t, t ∈ timestamps self → (t < t1)%R) →
       (∀ t, t ∈ timestamps self →
             (Rpower (t1 - t) (- decay_rate self) < float_huge)%R) →
       (t1 <= t2)%R →
       below_density pow_neg self t1 = Ok true →
       below_density pow_neg self t2 = Ok true).
Proof.
  split.
  - intros t Ht Hd Hle Hrange. unfold below_density.
    by rewrite compute_bla_zero_division.
  - intros t1 t2 Hamp Hd Hlater Hrange Hle.
    destruct (compute_bla_antitone pow_neg self t1 t2 Hamp Hd Hlater Hrange Hle)
      as (v1 & v2 & Hv1 & Hv2 & Hv).
    unfold below_density. rewrite Hv1, Hv2, !bind_Ok.
    intros [= Hb]. f_equal. apply bool_decide_eq_true.
    apply bool_decide_eq_true in Hb. lra.
Qed.

Lemma below_density_spec_witness :
  below_density Rpower (BLA_update (BLA_init 0 2 (1 / 2) (9 / 10)) 0) 0 =
  Raise ZeroDivisionError.
Proof.
  apply (proj1 (below_density_spec Rpower
                  (BLA_update (BLA_init 0 2 (1 / 2) (9 / 10)) 0))).
  - simpl. set_solver.
  - simpl. lra.
  - simpl. intros t ->%list_elem_of_singleton. lra.
  - simpl. intros t ->%list_elem_of_singleton. lra.
Defined.

(** ** MatchStatistics.update, MatchStatistics.discount *)

Lemma filter_is_update_cons (b : bool) (c : stat_call) (cs : list stat_call) :
  count_updates b (c :: cs) =
  ((if is_update b c then 1 else 0) + count_updates b cs)%nat.
Proof.
  unfold count_updates. rewrite filter_cons. by destruct (is_update b c).
Qed.

(** X22.  Starting from a fresh record, after any sequence of [update]
    calls the positive counter is the number of positive outcomes and the
    negative counter the number of negative ones (counters read as reals):
    each call adds exactly one to exactly one counter. *)
Theorem MatchStatistics_update_counts (outcomes : list bool) :
  positive_matches (foldl MatchStatistics_update MatchStatistics_init outcomes)
  = INR (length (filter (fun b => b = true) outcomes))
  ∧ negative_matches (foldl MatchStatistics_update MatchStatistics_init outcomes)
    = INR (length (filter (fun b => b = false) outcomes))
  ∧ (positive_matches (foldl MatchStatistics_update MatchStatistics_init outcomes)
     + negative_matches (foldl MatchStatistics_update MatchStatistics_init outcomes)
     = INR (length outcomes))%R.
Proof.
  assert (Hgen : ∀ self,
    positive_matches (foldl MatchStatistics_update self outcomes)
    = (positive_matches self
       + INR (length (filter (fun b => b = true) outcomes)))%R
    ∧ negative_matches (foldl MatchStatistics_update self outcomes)
      = (negative_matches self
         + INR (length (filter (fun b => b = false) outcomes)))%R
    ∧ (length (filter (fun b => b = true) outcomes)
       + length (filter (fun b => b = false) outcomes) = length outcomes)%nat).
  { induction outcomes as [|b bs IH]; intros self.
    - simpl. split_and!; [lra | lra | done].
    - cbn [foldl]. destruct (IH (MatchStatistics_update self b)) as (-> & -> & Hlen).
      destruct b; cbn [MatchStatistics_update positive_matches negative_matches].
      + rewrite filter_cons_True, filter_cons_False by done.
        cbn [length]. rewrite S_INR. split_and!; [lra | lra | lia].
      + rewrite filter_cons_False, filter_cons_True by done.
        cbn [length]. rewrite S_INR. split_and!; [lra | lra | lia]. }
  destruct (Hgen MatchStatistics_init) as (Hp & Hn & Hlen).
  rewrite Hp, Hn. simpl. split_and!; [lra | lra |].
  rewrite <- Hlen, plus_INR. lra.
Qed.

Lemma apply_calls_bounds (cs : list stat_call) (self : MatchStatistics) :
  Forall (fun c => match c with
                   | CallUpdate _ => True
                   | CallDiscount m => (0 <= m <= 1)%R
                   end) cs →
  (0 <= positive_matches self)%R →
  (0 <= negative_matches self)%R →
  (0 <= positive_matches (apply_calls self cs)
   <= positive_matches self + INR (count_updates true cs))%R
  ∧ (0 <= negative_matches (apply_calls self cs)
     <= negative_matches self + INR (count_updates false cs))%R.
Proof.
  revert self. induction cs as [|c cs IH]; intros self Hcs Hp Hn.
  - unfold apply_calls, count_updates. simpl. split; lra.
  - apply Forall_cons in Hcs as [Hc Hcs].
    unfold apply_calls. cbn [foldl]. fold (apply_calls (apply_call self c) cs).
    rewrite !filter_is_update_cons, !plus_INR.
    destruct c as [b|m].
    + destruct (IH (apply_call self (CallUpdate b)) Hcs) as [Hp' Hn'].
      { destruct b; simpl; lra. }
      { destruct b; simpl; lra. }
      destruct b; simpl in *; split; lra.
    + destruct (IH (apply_call self (CallDiscount m)) Hcs) as [Hp' Hn'].
      { simpl. apply Rmult_le_pos; lra. }
      { simpl. apply Rmult_le_pos; lra. }
      simpl in *.
      assert (positive_matches self * m <= positive_matches self)%R by nra.
      assert (negative_matches self * m <= negative_matches self)%R by nra.
      split; lra.
Qed.

(** X23.  Invariant of a record driven by any sequence of [update] and
    [discount] calls whose multipliers lie in [[0, 1]]: starting fresh, both
    counters stay non-negative and neither exceeds the number of updates of
    its kind. *)
Theorem MatchStatistics_invariant (cs : list stat_call) :
  Forall (fun c => match c with
                   | CallUpdate _ => True
                   | CallDiscount m => (0 <= m <= 1)%R
                   end) cs →
  (0 <= positive_matches (apply_calls MatchStatistics_init cs)
   <= INR (count_updates true cs))%R
  ∧ (0 <= negative_matches (apply_calls MatchStatistics_init cs)
     <= INR (count_updates false cs))%R.
Proof.
  intros Hcs.
  destruct (apply_calls_bounds cs MatchStatistics_init Hcs) as [Hp Hn];
    [simpl; lra | simpl; lra |].
  simpl in Hp, Hn. split; lra.
Qed.

Lemma MatchStatistics_invariant_witness :
  (0 <= positive_matches
          (apply_calls MatchStatistics_init
             [CallUpdate true; CallDiscount (1 / 2); CallUpdate false])
   <= INR (count_updates true
             [CallUpdate true; CallDiscount (1 / 2); CallUpdate false]))%R
  ∧ (0 <= negative_matches
            (apply_calls MatchStatistics_init
               [CallUpdate true; CallDiscount (1 / 2); CallUpdate false])
     <= INR (count_updates false
               [CallUpdate true; CallDiscount (1 / 2); CallUpdate false]))%R.
Proof.
  apply MatchStatistics_invariant.
  repeat (apply Forall_cons; split; [simpl; try lra; exact I|]).
  apply Forall_nil_2.
Defined.

Lemma Prim2SF_one : Prim2SF 1%float = sf_one.
Proof. reflexivity. Qed.

Lemma round64_pow52_same s m e :
  bounded prec emax m e = true →
  binary_round_aux prec emax s (Zpos (m * 4503599627370496)) (e - 52) loc_Exact
  = round64 s m e.
Proof.
  intros [Hc He]%bounded_digits. rewrite Pos.mul_comm.
  unfold round64, binary_round_aux.
  assert (Hshr : shr_fexp prec emax (Zpos (4503599627370496 * m)) (e - 52)
                          loc_Exact
                 = shr_fexp prec emax (Zpos m) e loc_Exact).
  { unfold shr_fexp, Zdigits2, shr_record_of_loc. rewrite digits2_pos_shift52.
    unfold fexp, emin, prec, emax.
    replace (Z.max (52 + Zpos (digits2_pos m) + (e - 52) - 53) (3 - 1024 - 53)
             - (e - 52))%Z
      with (0 + 52)%Z by lia.
    replace (Z.max (Zpos (digits2_pos m) + e - 53) (3 - 1024 - 53) - e)%Z
      with 0%Z by lia.
    rewrite shr_shift52 by lia. f_equal. lia. }
  by rewrite Hshr.
Qed.

Lemma SF64mul_one (x : spec_float) :
  valid_binary x = true → SF64mul x sf_one = x.
Proof.
  destruct x as [s|s| |s m e]; [by destruct s | by destruct s | done |].
  intros Hb. simpl in Hb. pose proof (bounded_digits m e Hb) as [Hc He].
  unfold SF64mul, SFmul, sf_one. rewrite xorb_false_r.
  replace (e + -52)%Z with (e - 52)%Z by lia.
  rewrite round64_pow52_same by done. by apply round64_exact.
Qed.

Lemma float_mul_one (x : float) : (x * 1 = x)%float.
Proof.
  apply Prim2SF_inj. rewrite mul_spec, Prim2SF_one.
  apply SF64mul_one, Prim2SF_valid.
Qed.

(** X24.  Over binary64, [discount(1.0)] changes nothing: both counters keep
    their exact value, whatever it is (subnormal numbers, infinities and NaN
    included). *)
Theorem discount64_one (self : MatchStatistics64) :
  discount64 self 1 = self.
Proof.
  destruct self as [p n]. unfold discount64. simpl.
  by rewrite !float_mul_one.
Qed.

(** ** TopDown followed by BottomUp *)

Lemma sum_over_scale {A : Type} (k : R) (f : A → R) (l : list A) :
  sum_over (fun x => k * f x)%R l = (k * sum_over f l)%R.
Proof.
  induction l as [|x l IH]; [simpl; lra|].
  rewrite !sum_over_cons, IH. lra.
Qed.

Lemma TopDown_call_values (chunk : Chunk) (input_map m : gmap Node R) (s : R) :
  weights_cover chunk →
  input_map !! chunk_node chunk = Some s →
  TopDown_call (TopDown_init chunk) input_map = Ok m →
  ∀ f, f ∈ microfeatures chunk →
       m !! NFeature f =
       Some (s * weight chunk (dim f) / INR (count_dim chunk (dim f)))%R.
Proof.
  intros Hcov Hs Hcall f Hf.
  unfold TopDown_call in Hcall. cbn [TopDown_init td_chunk] in Hcall.
  rewrite Hs in Hcall.
  destruct (TopDown_loop chunk s (microfeatures chunk) ∅)
    as (m' & Hm' & _ & Hval & _); [done | done |].
  rewrite Hm' in Hcall. injection Hcall as ->.
  destruct (Hcov f Hf) as [w Hw]. rewrite (Hval f w Hf Hw).
  unfold weight. by rewrite Hw.
Qed.

(** X25.  Sending a chunk's strength down to its microfeatures and back up
    multiplies it by a factor that depends on the chunk alone: for weights
    that cover the chunk's dimensions, are not negative and sum to [W > 0]
    with [W^1.1] in the range of the floats, BottomUp of the TopDown output
    at strength [s] is
    [s * (Σ_d weight(d)^2 / count(d)) / W^1.1], the sum over the dimensions
    of the chunk's microfeatures. *)
Theorem BottomUp_after_TopDown (pow_neg : R → R → R) (chunk : Chunk)
    (input_map m : gmap Node R) (s : R) :
  weights_cover chunk →
  weights_nonneg chunk →
  (0 < weight_sum chunk)%R →
  in_float_range (Rpower (weight_sum chunk) (11 / 10)) →
  input_map !! chunk_node chunk = Some s →
  TopDown_call (TopDown_init chunk) input_map = Ok m →
  BottomUp_call pow_neg (BottomUp_init chunk) m =
  Ok {[chunk_node chunk :=
         (s * sum_over (fun d => weight chunk d * weight chunk d
                                 / INR (count_dim chunk d))
                       (elements (list_to_set (dim <$> microfeatures chunk)
                                  : gset string))
          / Rpower (weight_sum chunk) (11 / 10))%R]}.
Proof.
  intros Hcov _ Hpos Hrange Hs Hcall.
  pose proof (TopDown_call_values chunk input_map m s Hcov Hs Hcall) as Hval.
  rewrite BottomUp_call_pos by done. do 3 f_equal.
  assert (HD : present_dims (microfeatures chunk) m
               = list_to_set (dim <$> microfeatures chunk)).
  { unfold present_dims. apply set_eq. intros d.
    rewrite !elem_of_list_to_set, !list_elem_of_fmap. split.
    - intros (f & -> & [_ Hf]%list_elem_of_filter). by exists f.
    - intros (f & -> & Hf). exists f. split; [done|].
      apply list_elem_of_filter. split; [|done]. rewrite (Hval f Hf). by eexists. }
  unfold weighted_evidence. rewrite HD, <- sum_over_scale.
  apply sum_over_ext. intros d Hd%elem_of_elements. rewrite <- HD in Hd.
  destruct (max_activation_is_max _ _ _ Hd) as [(f & Hf & <- & Hmax) _].
  rewrite (Hval f Hf) in Hmax. injection Hmax as <-.
  unfold Rdiv. lra.
Qed.

Lemma BottomUp_after_TopDown_witness :
  ∃ m, TopDown_call (TopDown_init bw_square_chunk)
         {[chunk_node bw_square_chunk := 1%R]} = Ok m
       ∧ BottomUp_call Rpower (BottomUp_init bw_square_chunk) m =
         Ok {[chunk_node bw_square_chunk :=
                (1 * sum_over (fun d => weight bw_square_chunk d
                                        * weight bw_square_chunk d
                                        / INR (count_dim bw_square_chunk d))
                              (elements
                                 (list_to_set
                                    (dim <$> microfeatures bw_square_chunk)
                                  : gset string))
                 / Rpower (weight_sum bw_square_chunk) (11 / 10))%R]}.
Proof.
  destruct (TopDown_loop bw_square_chunk 1 (microfeatures bw_square_chunk) ∅)
    as (m & Hm & _); [done | apply weights_cover_bw_square |].
  assert (Hcall : TopDown_call (TopDown_init bw_square_chunk)
                    {[chunk_node bw_square_chunk := 1%R]} = Ok m).
  { unfold TopDown_call. cbn [TopDown_init td_chunk].
    by rewrite lookup_singleton_eq. }
  exists m. split; [exact Hcall|].
  apply (BottomUp_after_TopDown Rpower bw_square_chunk
           {[chunk_node bw_square_chunk := 1%R]} m 1).
  - apply weights_cover_bw_square.
  - apply weights_nonneg_bw_square.
  - rewrite weight_sum_bw_square. lra.
  - apply in_float_range_bw_square.
  - apply lookup_singleton_eq.
  - exact Hcall.
Defined.
